(** * Los-keys: single-use access keys (src/index.js)

    A shallow embedding of the key service of [src/index.js]: the two
    PostgreSQL tables, the SQL statements the program issues, the
    handlers of the HTTP endpoint [/api/verify] and of the Discord slash
    commands, and the periodic clean-up.  Handlers are written in a small
    monad of effects ([prog]); one interpreter runs a handler alone, a
    second one interleaves several handlers at their [await] points. *)

From stdpp Require Import base strings list sorting pretty.
From Stdlib Require Import ZArith Lia Ascii.

Set Default Proof Using "Type".
Local Open Scope string_scope.
Local Open Scope Z_scope.

(** ** The tables ([initializeDatabase], lines 40-76)

    Timestamps are integers, milliseconds since the epoch (what a JS
    [Date] holds).  A nullable column is an [option].  The surrogate
    [id SERIAL] columns are never read by the program and are left out. *)

Record key_row := KeyRow {
  key : string;                       (* TEXT UNIQUE NOT NULL *)
  creator_id : string;                (* TEXT NOT NULL *)
  creator_name : string;              (* TEXT NOT NULL *)
  creator_username : string;          (* TEXT NOT NULL *)
  created_at : Z;                     (* TIMESTAMP DEFAULT CURRENT_TIMESTAMP *)
  expires_at : Z;                     (* TIMESTAMP NOT NULL *)
  duration : string;                  (* TEXT NOT NULL *)
  used : bool;                        (* BOOLEAN DEFAULT false *)
  user_roblox_name : option string;   (* TEXT *)
  user_roblox_id : option string;     (* TEXT *)
  used_at : option Z;                 (* TIMESTAMP *)
  notes : option string               (* TEXT *)
}.

Record log_row := LogRow {
  log_action : string;
  log_key : option string;
  log_creator_id : option string;
  log_creator_name : option string;
  log_user_roblox_name : option string;
  log_timestamp : Z;
  log_details : option string
}.

(** The database together with the clock that [NOW()] and [new Date()]
    read. *)
Record world := World {
  keys : list key_row;
  logs : list log_row;
  clock : Z
}.

Definition set_keys (ks : list key_row) (w : world) : world :=
  World ks (logs w) (clock w).

Definition add_log (l : log_row) (w : world) : world :=
  World (keys w) (logs w ++ [l]) (clock w).

Definition advance (dt : N) (w : world) : world :=
  World (keys w) (logs w) (clock w + Z.of_N dt).

(** ** The SQL statements of the program

    One constructor per statement text that occurs in the handlers
    modelled below, with the statement's parameters. *)

Inductive sql :=
  (* SELECT * FROM keys WHERE key = $1                       (143, 374, 393) *)
  | SelectKey (k : string)
  (* UPDATE keys SET used = true, user_roblox_name = $1,
       user_roblox_id = $2, used_at = NOW() WHERE key = $3          (161) *)
  | UpdateUsed (robloxName robloxId k : string)
  (* INSERT INTO logs (action, key, creator_id, creator_name,
       user_roblox_name, details) VALUES ($1, ..., $6)              (107) *)
  | InsertLog (action k creatorId creatorName : string)
              (userRoblox details : option string)
  (* INSERT INTO keys (key, creator_id, creator_name, creator_username,
       expires_at, duration, notes) VALUES ($1, ..., $7)            (308) *)
  | InsertKey (k creatorId creatorName creatorUsername : string)
              (expiresAt : option Z) (durationText : option string)
              (notesText : string)
  (* DELETE FROM keys WHERE key = $1                                (384) *)
  | DeleteKey (k : string)
  (* DELETE FROM keys WHERE expires_at < NOW() AND used = false
       RETURNING key                                                 (81) *)
  | DeleteExpired
  (* SELECT * FROM keys WHERE creator_id = $1 AND expires_at > NOW()
       ORDER BY created_at DESC                                     (344) *)
  | SelectMine (creatorId : string).

Inductive res (A : Type) : Type :=
  | Ok (a : A)
  | Err (e : string).
Arguments Ok {A} a.
Arguments Err {A} e.

Definition has_key (k : string) (r : key_row) : bool := (key r =? k)%string.

(** [SET used = true, user_roblox_name = $1, user_roblox_id = $2,
    used_at = NOW()]: the other columns keep their values. *)
Definition mark_used (robloxName robloxId : string) (now : Z) (r : key_row)
  : key_row :=
  KeyRow (key r) (creator_id r) (creator_name r) (creator_username r)
         (created_at r) (expires_at r) (duration r)
         true (Some robloxName) (Some robloxId) (Some now) (notes r).

(** The row an [INSERT INTO keys] creates: the columns the statement does
    not name take their defaults. *)
Definition new_key (k creatorId creatorName creatorUsername : string)
    (expiresAt : Z) (durationText notesText : string) (now : Z) : key_row :=
  KeyRow k creatorId creatorName creatorUsername now expiresAt durationText
         false None None None (Some notesText).

(** [WHERE expires_at < NOW() AND used = false] *)
Definition expired_unused (now : Z) (r : key_row) : bool :=
  (expires_at r <? now) && negb (used r).

(** [WHERE creator_id = $1 AND expires_at > NOW()] *)
Definition mine_unexpired (creatorId : string) (now : Z) (r : key_row) : bool :=
  (creator_id r =? creatorId)%string && (now <? expires_at r).

(** [ORDER BY created_at DESC].  SQL leaves the order of rows with equal
    [created_at] open; the model takes the one the merge sort gives. *)
Definition newer_first (r1 r2 : key_row) : Prop := created_at r2 ≤ created_at r1.

Global Instance newer_first_dec r1 r2 : Decision (newer_first r1 r2).
Proof. unfold newer_first. apply _. Defined.

Global Instance newer_first_total : Total newer_first.
Proof. intros r1 r2. unfold newer_first. lia. Qed.

Global Instance newer_first_trans : Transitive newer_first.
Proof. intros r1 r2 r3. unfold newer_first. lia. Qed.

Definition unique_violation : string :=
  "duplicate key value violates unique constraint keys_key_key".
Definition invalid_timestamp : string :=
  "invalid input syntax for type timestamp".
Definition null_violation : string :=
  "null value in column duration violates not-null constraint".

(** What a statement does to the database, and the rows it returns
    ([result.rows]).  The database itself rejects an [INSERT INTO keys]
    whose key is already present ([key TEXT UNIQUE]), whose [expires_at]
    is no timestamp ([None]: an invalid [Date]) or whose [duration] is
    null ([None]: [undefined]).  [DeleteExpired] returns the deleted rows;
    the program reads only their number. *)
Definition exec_sql (q : sql) (w : world) : res (list key_row * world) :=
  match q with
  | SelectKey k =>
      Ok (filter (λ r, has_key k r = true) (keys w), w)
  | UpdateUsed robloxName robloxId k =>
      Ok ([], set_keys
                (map (λ r, if has_key k r
                           then mark_used robloxName robloxId (clock w) r
                           else r) (keys w)) w)
  | InsertLog action k creatorId creatorName userRoblox details =>
      Ok ([], add_log (LogRow action (Some k) (Some creatorId)
                              (Some creatorName) userRoblox (clock w) details) w)
  | InsertKey k creatorId creatorName creatorUsername expiresAt dtext ntext =>
      match expiresAt, dtext with
      | None, _ => Err invalid_timestamp
      | Some _, None => Err null_violation
      | Some e, Some d =>
          if existsb (has_key k) (keys w)
          then Err unique_violation
          else Ok ([], set_keys
                         (keys w ++ [new_key k creatorId creatorName
                                       creatorUsername e d ntext (clock w)]) w)
      end
  | DeleteKey k =>
      Ok ([], set_keys (filter (λ r, has_key k r = false) (keys w)) w)
  | DeleteExpired =>
      Ok (filter (λ r, expired_unused (clock w) r = true) (keys w),
          set_keys (filter (λ r, expired_unused (clock w) r = false) (keys w)) w)
  | SelectMine creatorId =>
      Ok (merge_sort newer_first
            (filter (λ r, mine_unexpired creatorId (clock w) r = true) (keys w)),
          w)
  end.

(** ** Replies *)

(** The JSON body [res.json] sends from [/api/verify]. *)
Record verify_data := VerifyData {
  createdBy : string;
  data_duration : string;
  createdAt : Z
}.

Record verify_reply := VerifyReply {
  valid : bool;
  message : string;
  data : option verify_data
}.

(** A Discord embed: colour, title, description and the fields in the
    order [addFields] adds them (name, value).  Footer, timestamp and the
    [inline] and [ephemeral] flags carry no key data and are left out. *)
Record embed := Embed {
  color : string;
  title : string;
  description : option string;
  fields : list (string * string)
}.

(** What [interaction.reply] is called with. *)
Inductive reply :=
  | Content (s : string)
  | Embeds (e : embed).

(** ** Handlers as programs

    A handler is a tree of the effects it awaits: a statement sent through
    [dbRun], [crypto.randomBytes], a reading of the clock and [user.send].
    An effect that can throw has a continuation for the error. *)

Inductive prog (A : Type) : Type :=
  | Ret (a : A)
  | Throw (e : string)
  | Query (q : sql) (kerr : string → prog A) (k : list key_row → prog A)
  | RandomBytes (n : nat) (k : list Byte.byte → prog A)
  | DateNow (k : Z → prog A)
  | UserSend (e : embed) (kerr : string → prog A) (k : unit → prog A).
Arguments Ret {A} a.
Arguments Throw {A} e.
Arguments Query {A} q kerr k.
Arguments RandomBytes {A} n k.
Arguments DateNow {A} k.
Arguments UserSend {A} e kerr k.

Fixpoint bind {A B} (p : prog A) (f : A → prog B) : prog B :=
  match p with
  | Ret a => f a
  | Throw e => Throw e
  | Query q kerr k => Query q (λ e, bind (kerr e) f) (λ r, bind (k r) f)
  | RandomBytes n k => RandomBytes n (λ bs, bind (k bs) f)
  | DateNow k => DateNow (λ t, bind (k t) f)
  | UserSend e kerr k => UserSend e (λ x, bind (kerr x) f) (λ u, bind (k u) f)
  end.

Global Instance prog_ret : MRet prog := @Ret.
Global Instance prog_bind : MBind prog := λ A B f p, bind p f.

(** [try { p } catch (error) { h error }] *)
Fixpoint try_catch {A} (p : prog A) (h : string → prog A) : prog A :=
  match p with
  | Ret a => Ret a
  | Throw e => h e
  | Query q kerr k =>
      Query q (λ e, try_catch (kerr e) h) (λ r, try_catch (k r) h)
  | RandomBytes n k => RandomBytes n (λ bs, try_catch (k bs) h)
  | DateNow k => DateNow (λ t, try_catch (k t) h)
  | UserSend e kerr k =>
      UserSend e (λ x, try_catch (kerr x) h) (λ u, try_catch (k u) h)
  end.

(** [dbRun], [dbGet], [dbAll] (lines 21-38): the rows of the result, its
    first row, all its rows. *)
Definition dbRun (q : sql) : prog (list key_row) := Query q Throw Ret.

Definition dbGet (q : sql) : prog (option key_row) :=
  rows ← dbRun q; mret (head rows).

Definition dbAll (q : sql) : prog (list key_row) := dbRun q.

(** [addLog] (lines 105-111) *)
Definition addLog (action k creatorId creatorName : string)
    (userRoblox details : option string) : prog unit :=
  _ ← dbRun (InsertLog action k creatorId creatorName userRoblox details);
  mret tt.

(** ** [generateKey] (lines 101-103)

    [crypto.randomBytes(8).toString('hex').toUpperCase()] *)

Definition hex_digit (n : N) : ascii :=
  default "0"%char (String.get (N.to_nat n) "0123456789abcdef").

Fixpoint to_hex (bs : list Byte.byte) : string :=
  match bs with
  | [] => ""
  | b :: bs' =>
      String (hex_digit (Byte.to_N b / 16)%N)
        (String (hex_digit (Byte.to_N b mod 16)%N) (to_hex bs'))
  end.

Definition upper_ascii (c : ascii) : ascii :=
  let n := N_of_ascii c in
  if ((97 <=? n) && (n <=? 122))%N then ascii_of_N (n - 32) else c.

Fixpoint toUpperCase (s : string) : string :=
  match s with
  | EmptyString => EmptyString
  | String c s' => String (upper_ascii c) (toUpperCase s')
  end.

Definition generateKey : prog string :=
  RandomBytes 8 (λ bs, Ret (toUpperCase (to_hex bs))).

(** ** [POST /api/verify] (lines 130-183)

    A field of the request body is absent or a string; JavaScript's [!v]
    holds for an absent field and for the empty string. *)

Record verify_body := VerifyBody {
  body_key : option string;
  body_robloxName : option string;
  body_robloxId : option string
}.

Definition truthy (v : option string) : option string :=
  match v with
  | Some "" => None
  | Some s => Some s
  | None => None
  end.

Definition invalid (msg : string) : verify_reply := VerifyReply false msg None.

Definition granted (kd : key_row) : verify_reply :=
  VerifyReply true "Key válida! Acesso liberado."
    (Some (VerifyData (creator_name kd) (duration kd) (created_at kd))).

Definition verify (body : verify_body) : prog verify_reply :=
  try_catch
    (match truthy (body_key body) with
     | None => mret (invalid "Key não fornecida")
     | Some k =>
       match truthy (body_robloxName body), truthy (body_robloxId body) with
       | Some robloxName, Some robloxId =>
           keyData ← dbGet (SelectKey k);
           match keyData with
           | None => mret (invalid "Key não encontrada")
           | Some kd =>
               if used kd then mret (invalid "Key já foi utilizada")
               else
                 now ← DateNow Ret;
                 if expires_at kd <? now then mret (invalid "Key expirada")
                 else
                   _ ← dbRun (UpdateUsed robloxName robloxId k);
                   _ ← addLog "VERIFY" k (creator_id kd) (creator_name kd)
                         (Some robloxName)
                         (Some ("Usado por " +:+ robloxName +:+ " (ID: "
                                +:+ robloxId +:+ ")"));
                   mret (granted kd)
           end
       | _, _ => mret (invalid "Dados do Roblox não fornecidos")
       end
     end)
    (λ error, mret (invalid error)).

(** ** [cleanupExpiredKeys] (lines 78-89)

    The count and the error go to the console only. *)
Definition cleanupExpiredKeys : prog unit :=
  try_catch (_ ← dbRun DeleteExpired; mret tt) (λ error, mret tt).

(** ** Building an embed

    [EmbedBuilder] belongs to discord.js, not to this repository.  Its
    setters check what they are given and throw when a text is too short
    or too long or when an embed would get more than 25 fields; the
    handlers call them inside their [try].  A text is measured as
    JavaScript does, in UTF-16 code units; the strings of this file are
    the UTF-8 bytes of the program's strings.  The colours, titles and
    the footer the handlers set are constants that pass these checks.
    What Discord does with a message once the handler has handed it over
    is not part of the program. *)

(** The UTF-16 code units a byte of a UTF-8 string stands for: one for
    the first byte of a character, a second one for the first byte of a
    four-byte character, none for a continuation byte. *)
Definition utf16_units (c : ascii) : nat :=
  let n := N_of_ascii c in
  if (n <? 128)%N then 1%nat
  else if (n <? 192)%N then 0%nat
  else if (n <? 240)%N then 1%nat
  else 2%nat.

(** [s.length] *)
Fixpoint js_length (s : string) : nat :=
  match s with
  | EmptyString => 0%nat
  | String c s' => (utf16_units c + js_length s')%nat
  end.

Definition text_within (lo hi : nat) (s : string) : bool :=
  ((lo <=? js_length s) && (js_length s <=? hi))%nat.

(** A field needs a name of 1 to 256 and a value of 1 to 1024 units. *)
Definition field_fits (f : string * string) : bool :=
  text_within 1 256 f.1 && text_within 1 1024 f.2.

Definition embed_error : string := "Received one or more errors".

(** [embed.setDescription(d)] *)
Definition setDescription (d : string) (e : embed) : res embed :=
  if text_within 1 4096 d
  then Ok (Embed (color e) (title e) (Some d) (fields e))
  else Err embed_error.

(** [embed.addFields(f1, ..., fn)] *)
Definition addFields (fs : list (string * string)) (e : embed) : res embed :=
  if (length (fields e) + length fs <=? 25)%nat && forallb field_fits fs
  then Ok (Embed (color e) (title e) (description e) (fields e ++ fs))
  else Err embed_error.

Definition and_then {A B} (r : res A) (f : A → res B) : res B :=
  match r with
  | Ok a => f a
  | Err e => Err e
  end.

(** Synchronous code that may throw, inside a handler. *)
Definition attempt {A} (r : res A) : prog A :=
  match r with
  | Ok a => Ret a
  | Err e => Throw e
  end.

(** ** The slash commands ([interactionCreate], lines 284-438)

    Each command is the body of its [if (commandName === ...)] inside the
    handler's [try]; the value of the program is what [interaction.reply]
    is called with. *)

Record user := User {
  user_id : string;
  globalName : option string;
  username : string
}.

(** [user.globalName || user.username] *)
Definition display_name (u : user) : string :=
  default (username u) (truthy (globalName u)).

Definition command_error : reply := Content "❌ Erro ao processar comando!".

Definition nl : string := String (ascii_of_nat 10) "".

(** [<t:${Math.floor(date / 1000)}:R>] *)
Definition relative_time (t : Z) : string :=
  "<t:" +:+ pretty (t `div` 1000) +:+ ":R>".

(** The values the [duracao] option is registered with (lines 243-249). *)
Definition duracao_choices : list string := ["1h"; "24h"; "7d"; "30d"; "perm"].

(** The [switch] of lines 296-302; it has no default case, so any other
    string leaves [durationMs] and [durationText] undefined ([None]). *)
Definition duration_switch (d : string) : option (Z * string) :=
  if (d =? "1h")%string then Some (60 * 60 * 1000, "1 Hora")
  else if (d =? "24h")%string then Some (24 * 60 * 60 * 1000, "24 Horas")
  else if (d =? "7d")%string then Some (7 * 24 * 60 * 60 * 1000, "7 Dias")
  else if (d =? "30d")%string then Some (30 * 24 * 60 * 60 * 1000, "30 Dias")
  else if (d =? "perm")%string
       then Some (365 * 24 * 60 * 60 * 1000, "Permanente (1 Ano)")
  else None.

(** The four fields the first [addFields] of [getkey] is called with. *)
Definition getkey_main_fields (u : user) (k : string)
    (durationText : option string) (expiresAt : option Z) : list (string * string) :=
  [ ("🔑 Key", "`" +:+ k +:+ "`");
    ("⏱️ Duração", default "undefined" durationText);
    ("📅 Expira em", default "<t:NaN:R>" (relative_time <$> expiresAt));
    ("👤 Seu ID", "`" +:+ user_id u +:+ "`") ].

(** The embed of lines 316-330: four fields at once, then the notes, if
    any, in a call of their own. *)
Definition getkey_embed (u : user) (k : string) (durationText : option string)
    (expiresAt : option Z) (notesText : string) : res embed :=
  and_then
    (addFields (getkey_main_fields u k durationText expiresAt)
       (Embed "#5865F2" "🔐 Nova Key Gerada!" None []))
    (λ e, if (notesText =? "")%string then Ok e
          else addFields [("📝 Notas", notesText)] e).

Definition getkey (u : user) (duracao : string) (notas : option string)
  : prog reply :=
  try_catch
    (let notesText := default "" (truthy notas) in
     let durationMs := fst <$> duration_switch duracao in
     let durationText := snd <$> duration_switch duracao in
     k ← generateKey;
     now ← DateNow Ret;
     let expiresAt := (λ ms, now + ms) <$> durationMs in
     _ ← dbRun (InsertKey k (user_id u) (display_name u) (username u)
                  expiresAt durationText notesText);
     _ ← addLog "CREATE" k (user_id u) (display_name u) None
           (Some ("Key gerada: " +:+ default "undefined" durationText
                  +:+ ". Notas: "
                  +:+ (if (notesText =? "")%string then "Nenhuma" else notesText)));
     e ← attempt (getkey_embed u k durationText expiresAt notesText);
     try_catch
       (_ ← UserSend e Throw Ret; mret (Content "✅ Key enviada no seu DM!"))
       (λ _, mret (Embeds e)))
    (λ error, mret command_error).

Definition minhaskeys_field (kd : key_row) : string * string :=
  let status := if used kd
                then "❌ Usada por " +:+ default "null" (user_roblox_name kd)
                else "✅ Válida" in
  ("`" +:+ key kd +:+ "`",
   "Status: " +:+ status +:+ nl +:+ "Duração: " +:+ duration kd +:+ nl
   +:+ "Expira: " +:+ relative_time (expires_at kd)).

(** [userKeys.forEach(keyData => embed.addFields(...))]: one call for
    each row, in order; the first that throws ends the loop. *)
Fixpoint minhaskeys_fields (userKeys : list key_row) (e : embed) : res embed :=
  match userKeys with
  | [] => Ok e
  | kd :: rest =>
      and_then (addFields [minhaskeys_field kd] e) (minhaskeys_fields rest)
  end.

Definition minhaskeys_description (u : user) (userKeys : list key_row) : string :=
  "Total: **" +:+ pretty (length userKeys) +:+ "** key(s) | ID: `"
  +:+ user_id u +:+ "`".

Definition minhaskeys_embed (u : user) (userKeys : list key_row) : res embed :=
  and_then
    (setDescription (minhaskeys_description u userKeys)
       (Embed "#5865F2" "🔑 Suas Keys Ativas" None []))
    (minhaskeys_fields userKeys).

Definition minhaskeys (u : user) : prog reply :=
  try_catch
    (userKeys ← dbAll (SelectMine (user_id u));
     if decide (length userKeys = 0%nat)
     then mret (Content "❌ Você não possui keys ativas.")
     else
       e ← attempt (minhaskeys_embed u userKeys);
       mret (Embeds e))
    (λ error, mret command_error).

Definition revokekey (u : user) (k : string) : prog reply :=
  try_catch
    (keyData ← dbGet (SelectKey k);
     match keyData with
     | None => mret (Content "❌ Key não encontrada.")
     | Some kd =>
         if negb (creator_id kd =? user_id u)%string
         then mret (Content "❌ Esta key não pertence a você.")
         else
           _ ← dbRun (DeleteKey k);
           _ ← addLog "REVOKE" k (user_id u) (display_name u) None
                 (Some "Key revogada");
           mret (Content ("✅ Key `" +:+ k +:+ "` revogada!"))
     end)
    (λ error, mret command_error).

(** The status line of [checkkey] (line 401). *)
Definition checkkey_status (kd : key_row) (now : Z) : string :=
  let expired := expires_at kd <? now in
  if used kd then "❌ Usada" else if expired then "⏰ Expirada" else "✅ Válida".

(** The six fields the first [addFields] of [checkkey] is called with,
    the field of the redeemer and the colour of the embed. *)
Definition checkkey_main_fields (k : string) (kd : key_row) (now : Z)
    : list (string * string) :=
  [ ("🔑 Key", "`" +:+ k +:+ "`");
    ("📊 Status", checkkey_status kd now);
    ("⏱️ Duração", duration kd);
    ("👤 Criador", creator_name kd +:+ " (`" +:+ creator_id kd +:+ "`)");
    ("📅 Criada", relative_time (created_at kd));
    ("⏰ Expira", relative_time (expires_at kd)) ].

Definition checkkey_used_field (kd : key_row) : string * string :=
  ("🎮 Usado por (Roblox)",
   default "null" (user_roblox_name kd) +:+ " (`"
   +:+ default "null" (user_roblox_id kd) +:+ "`)" +:+ nl
   +:+ relative_time (default 0 (used_at kd))).

Definition checkkey_color (kd : key_row) (now : Z) : string :=
  let expired := expires_at kd <? now in
  let isValid := negb (used kd) && negb expired in
  if isValid then "#57F287" else "#ED4245".

(** The embed of lines 406-430: six fields at once, then the redeemer of
    a used key and the notes, if any, each in a call of its own. *)
Definition checkkey_embed (k : string) (kd : key_row) (now : Z) : res embed :=
  and_then
    (addFields (checkkey_main_fields k kd now)
       (Embed (checkkey_color kd now) "🔍 Status da Key" None []))
    (λ e,
       and_then
         (if used kd then addFields [checkkey_used_field kd] e else Ok e)
         (λ e', match truthy (notes kd) with
                | Some n => addFields [("📝 Notas", n)] e'
                | None => Ok e'
                end)).

Definition checkkey (k : string) : prog reply :=
  try_catch
    (keyData ← dbGet (SelectKey k);
     match keyData with
     | None => mret (Content "❌ Key não encontrada.")
     | Some kd =>
         now ← DateNow Ret;
         e ← attempt (checkkey_embed k kd now);
         mret (Embeds e)
     end)
    (λ error, mret command_error).

(** ** Running handlers

    What the program cannot decide comes from an [oracle]: for each
    statement sent, whether the connection or the query fails (with which
    message) before the statement takes effect; the bytes of the random
    source; for each [user.send], whether the direct message is refused.
    An exhausted list means no failure; an exhausted random source reads
    as zero bytes. *)

Record oracle := Oracle {
  faults : list (option string);
  random : list Byte.byte;
  dm_refused : list bool
}.

Definition no_faults : oracle := Oracle [] [] [].

Definition next_fault (o : oracle) : option string * oracle :=
  match faults o with
  | [] => (None, o)
  | f :: fs => (f, Oracle fs (random o) (dm_refused o))
  end.

Definition next_bytes (n : nat) (o : oracle) : list Byte.byte * oracle :=
  (take n (random o ++ replicate n Byte.x00),
   Oracle (faults o) (drop n (random o)) (dm_refused o)).

Definition next_dm (o : oracle) : bool * oracle :=
  match dm_refused o with
  | [] => (false, o)
  | b :: bs => (b, Oracle (faults o) (random o) bs)
  end.

Definition dm_error : string := "Cannot send messages to this user".

(** One effect of a handler: the program that remains, the oracle and the
    world after it. *)
Definition step {A} (p : prog A) (o : oracle) (w : world)
  : prog A * oracle * world :=
  match p with
  | Ret _ | Throw _ => (p, o, w)
  | Query q kerr k =>
      match next_fault o with
      | (Some e, o') => (kerr e, o', w)
      | (None, o') =>
          match exec_sql q w with
          | Err e => (kerr e, o', w)
          | Ok (rows, w') => (k rows, o', w')
          end
      end
  | RandomBytes n k => (k (next_bytes n o).1, (next_bytes n o).2, w)
  | DateNow k => (k (clock w), o, w)
  | UserSend e kerr k =>
      ((if (next_dm o).1 then kerr dm_error else k tt), (next_dm o).2, w)
  end.

(** A handler run alone, from its first effect to its result: no other
    handler and no tick of the clock in between. *)
Fixpoint run {A} (p : prog A) (o : oracle) (w : world) : res A * oracle * world :=
  match p with
  | Ret a => (Ok a, o, w)
  | Throw e => (Err e, o, w)
  | Query q kerr k =>
      match next_fault o with
      | (Some e, o') => run (kerr e) o' w
      | (None, o') =>
          match exec_sql q w with
          | Err e => run (kerr e) o' w
          | Ok (rows, w') => run (k rows) o' w'
          end
      end
  | RandomBytes n k => run (k (next_bytes n o).1) (next_bytes n o).2 w
  | DateNow k => run (k (clock w)) o w
  | UserSend e kerr k =>
      run (if (next_dm o).1 then kerr dm_error else k tt) (next_dm o).2 w
  end.

(** Handlers in flight together.  Node runs one handler until its next
    [await] and then any other, so between two effects of one handler
    those of the others may take place; a schedule says whose effect
    comes next and when the clock advances.  (Reading the clock or the
    random source is a step of its own: it changes nothing for the other
    handlers.) *)
Inductive event :=
  | Tick (dt : N)
  | Step (i : nat).

Fixpoint interleave {A} (sched : list event) (ts : list (prog A))
    (o : oracle) (w : world) : list (prog A) * oracle * world :=
  match sched with
  | [] => (ts, o, w)
  | Tick dt :: sched' => interleave sched' ts o (advance dt w)
  | Step i :: sched' =>
      match ts !! i with
      | None => interleave sched' ts o w
      | Some p =>
          let '(p', o', w') := step p o w in
          interleave sched' (<[i := p']> ts) o' w'
      end
  end.

(** The reply of a handler that has finished. *)
Definition result_of {A} (p : prog A) : option A :=
  match p with
  | Ret a => Some a
  | _ => None
  end.

(** Requests served one after the other, the clock advancing by [dt]
    before each. *)
Fixpoint serve (reqs : list (N * verify_body)) (o : oracle) (w : world)
  : list (res verify_reply) * oracle * world :=
  match reqs with
  | [] => ([], o, w)
  | (dt, body) :: reqs' =>
      let '(r, o', w') := run (verify body) o (advance dt w) in
      let '(rs, o'', w'') := serve reqs' o' w' in
      (r :: rs, o'', w'')
  end.

(** The schedule that serves the handlers of a pool in turn: before
    handler [i] starts the clock advances by [dt], then the handler takes
    [n] steps, then handler [i + 1] follows. *)
Fixpoint in_turn (i : nat) (blocks : list (N * nat)) : list event :=
  match blocks with
  | [] => []
  | (dt, n) :: blocks' =>
      (Tick dt :: replicate n (Step i) ++ in_turn (S i) blocks')%list
  end.

(** ** All requests under one type

    The requests the process serves, and the program that serves each;
    used where a statement ranges over every operation. *)

Inductive request :=
  | Verify (body : verify_body)
  | Getkey (u : user) (duracao : string) (notas : option string)
  | Minhaskeys (u : user)
  | Revokekey (u : user) (k : string)
  | Checkkey (k : string)
  | Cleanup.

Inductive response :=
  | Json (r : verify_reply)
  | Interaction (r : reply)
  | Silent.

Definition handle (r : request) : prog response :=
  match r with
  | Verify body => bind (verify body) (λ x, Ret (Json x))
  | Getkey u duracao notas => bind (getkey u duracao notas) (λ x, Ret (Interaction x))
  | Minhaskeys u => bind (minhaskeys u) (λ x, Ret (Interaction x))
  | Revokekey u k => bind (revokekey u k) (λ x, Ret (Interaction x))
  | Checkkey k => bind (checkkey k) (λ x, Ret (Interaction x))
  | Cleanup => bind cleanupExpiredKeys (λ _, Ret Silent)
  end.

(** ** Vocabulary of the statements *)

(** No statement fails for a reason outside the database. *)
Definition fault_free (o : oracle) : Prop := Forall (λ f, f = None) (faults o).

(** The row [dbGet (SELECT * FROM keys WHERE key = $1)] sees. *)
Definition lookup_key (k : string) (w : world) : option key_row :=
  head (filter (λ r, has_key k r = true) (keys w)).

(** The database after the [UPDATE] of [verify]. *)
Definition consume (k robloxName robloxId : string) (w : world) : world :=
  set_keys (map (λ r, if has_key k r
                      then mark_used robloxName robloxId (clock w) r
                      else r) (keys w)) w.

(** The audit row [verify] appends. *)
Definition verify_log (k robloxName robloxId : string) (kd : key_row) (now : Z)
  : log_row :=
  LogRow "VERIFY" (Some k) (Some (creator_id kd)) (Some (creator_name kd))
         (Some robloxName) now
         (Some ("Usado por " +:+ robloxName +:+ " (ID: " +:+ robloxId +:+ ")")).

(** [used_at] is set exactly on the rows that are [used]. *)
Definition consistent (r : key_row) : Prop := used_at r ≠ None ↔ used r = true.

(** A reply that grants access. *)
Definition is_grant (r : res verify_reply) : bool :=
  match r with
  | Ok reply => valid reply
  | Err _ => false
  end.

(** How many of the requests for key [k] were granted. *)
Fixpoint grants_for (k : string) (reqs : list (N * verify_body))
    (replies : list (res verify_reply)) : nat :=
  match reqs, replies with
  | (_, body) :: reqs', r :: replies' =>
      (if decide (truthy (body_key body) = Some k)
       then (if is_grant r then 1 else 0)
       else 0)%nat + grants_for k reqs' replies'
  | _, _ => 0%nat
  end.

(** Everything one [verify] call can end in: the reply and the database
    it leaves.  [Refused]: nothing written.  [Unlogged]: the [UPDATE] went
    through and the audit [INSERT] failed.  [Granted]: both went through. *)
Inductive verify_outcome (body : verify_body) (w : world)
  : verify_reply → world → Prop :=
  | Refused reply :
      valid reply = false →
      verify_outcome body w reply w
  | Unlogged k n i kd reply :
      truthy (body_key body) = Some k →
      truthy (body_robloxName body) = Some n →
      truthy (body_robloxId body) = Some i →
      lookup_key k w = Some kd → used kd = false → clock w ≤ expires_at kd →
      valid reply = false →
      verify_outcome body w reply (consume k n i w)
  | Granted k n i kd :
      truthy (body_key body) = Some k →
      truthy (body_robloxName body) = Some n →
      truthy (body_robloxId body) = Some i →
      lookup_key k w = Some kd → used kd = false → clock w ≤ expires_at kd →
      verify_outcome body w (granted kd)
        (add_log (verify_log k n i kd (clock w)) (consume k n i w)).

(** The reason [verify] gives when it refuses a well-formed request. *)
Definition refusal (k : string) (w : world) : string :=
  match lookup_key k w with
  | None => "Key não encontrada"
  | Some kd => if used kd then "Key já foi utilizada" else "Key expirada"
  end.

(** [key TEXT UNIQUE]: no two rows carry the same key. *)
Definition unique_keys (w : world) : Prop := NoDup (key <$> keys w).

(** A handler that has nothing left to do but hand over its result. *)
Definition finished {A} (r : res A) : prog A :=
  match r with
  | Ok a => Ret a
  | Err e => Throw e
  end.

(** Key [k] has been redeemed: the row a lookup finds is [used]. *)
Definition spent (k : string) (w : world) : Prop :=
  ∃ kd, lookup_key k w = Some kd ∧ used kd = true.

(** The fields an embed has when every call of the builder is accepted. *)
Definition getkey_fields (u : user) (k : string) (durationText : option string)
    (expiresAt : option Z) (notesText : string) : list (string * string) :=
  (getkey_main_fields u k durationText expiresAt
   ++ (if (notesText =? "")%string then [] else [("📝 Notas", notesText)]))%list.

Definition checkkey_fields (k : string) (kd : key_row) (now : Z)
    : list (string * string) :=
  (checkkey_main_fields k kd now
   ++ (if used kd then [checkkey_used_field kd] else [])
   ++ match truthy (notes kd) with
      | Some n => [("📝 Notas", n)]
      | None => []
      end)%list.

(** A request for key [k] that passes the checks on the body. *)
Definition asks_for (k : string) (body : verify_body) : Prop :=
  truthy (body_key body) = Some k ∧
  is_Some (truthy (body_robloxName body)) ∧
  is_Some (truthy (body_robloxId body)).

(** ** Sample data *)

Definition alice : user := User "111" (Some "Alice") "alice".
Definition mallory : user := User "666" None "mallory".

Definition sample_bytes : list Byte.byte :=
  [Byte.xab; Byte.x01; Byte.xff; Byte.x10; Byte.x00; Byte.x7f; Byte.xde; Byte.xad].
Definition other_bytes : list Byte.byte :=
  [Byte.x00; Byte.x11; Byte.x22; Byte.x33; Byte.x44; Byte.x55; Byte.x66; Byte.x77].

Definition sample_id : string := "AB01FF10007FDEAD".

(** The key [alice] gets from [/getkey 1h] at time 1000 with the random
    bytes above: it expires at 3601000. *)
Definition sample_key : key_row :=
  KeyRow sample_id "111" "Alice" "alice" 1000 3601000 "1 Hora"
         false None None None (Some "").

Definition sample_log : log_row :=
  LogRow "CREATE" (Some sample_id) (Some "111") (Some "Alice") None 1000
         (Some "Key gerada: 1 Hora. Notas: Nenhuma").

Definition empty_db : world := World [] [] 1000.
Definition issued : world := World [sample_key] [sample_log] 1000.

Definition bob_body : verify_body := VerifyBody (Some sample_id) (Some "bob") (Some "42").
Definition carol_body : verify_body := VerifyBody (Some sample_id) (Some "carol") (Some "43").

(** The sample key after [bob] redeemed it at time 2000. *)
Definition redeemed_key : key_row := mark_used "bob" "42" 2000 sample_key.
Definition redeemed : world :=
  World [redeemed_key]
        [sample_log; verify_log sample_id "bob" "42" sample_key 2000] 2000.

(** A table at time 4000000 with one key of each kind: expired and not
    used, not expired and not used, expired and used. *)
Definition other_key : key_row :=
  KeyRow "0011223344556677" "666" "mallory" "mallory" 1000 86401000 "24 Horas"
         false None None None (Some "").
Definition spent_key : key_row :=
  KeyRow "FFFFFFFFFFFFFFFF" "111" "Alice" "alice" 1000 3601000 "1 Hora"
         true (Some "bob") (Some "42") (Some 2000) (Some "").
Definition mixed : world := World [sample_key; other_key; spent_key] [] 4000000.

(** A Roblox name of 1100 characters, and a request that redeems the
    sample key under it. *)
Definition long_name : string :=
  String.string_of_list_ascii (replicate 1100 "a"%char).
Definition long_body : verify_body :=
  VerifyBody (Some sample_id) (Some long_name) (Some "42").

(** A table with 26 keys of [alice], none expired. *)
Definition crowded : world :=
  World ((λ n : nat, KeyRow (pretty n) "111" "Alice" "alice" 1000 3601000 "1 Hora"
                       false None None None (Some "")) <$> seq 0 26)
        [] 2000.

(** Both requests read the row before either updates it. *)
Definition racing : list event :=
  [Step 0; Step 1; Step 0; Step 1; Step 0; Step 1; Step 0; Step 1]%nat.

(** ** The read-only endpoints (lines 113-127 and 185-229)

    [GET /api/status], [GET /api/keys] and [GET /api/stats] only read the
    [keys] table.  Each sends its statements through [dbRun], so each
    statement can fail as the oracle says; none changes the database. *)

(** The [WHERE] clauses of lines 117, 192, 194, 196 and 211-217. *)
Inductive key_filter :=
  | AllKeys        (* no WHERE clause *)
  | ValidKeys      (* WHERE used = false AND expires_at > NOW() *)
  | UsedKeys       (* WHERE used = true *)
  | ExpiredKeys.   (* WHERE expires_at < NOW() *)

Definition selects (f : key_filter) (now : Z) (r : key_row) : bool :=
  match f with
  | AllKeys => true
  | ValidKeys => negb (used r) && (now <? expires_at r)
  | UsedKeys => used r
  | ExpiredKeys => expires_at r <? now
  end.

(** [SELECT COUNT(...) as count FROM keys WHERE ...].  The driver hands
    the count over as a decimal string and [parseInt] reads it back; the
    model keeps the number. *)
Definition count_keys (f : key_filter) (w : world) : nat :=
  length (filter (λ r, selects f (clock w) r = true) (keys w)).

(** [SELECT ... FROM keys WHERE ... ORDER BY created_at DESC LIMIT 200] *)
Definition list_keys (f : key_filter) (w : world) : list key_row :=
  take 200 (merge_sort newer_first
              (filter (λ r, selects f (clock w) r = true) (keys w))).

(** A reading statement sent through [dbRun]: it fails if the oracle says
    so, else it gives its answer. *)
Definition ask {A} (answer : world → A) (o : oracle) (w : world)
  : res A * oracle :=
  match next_fault o with
  | (Some e, o') => (Err e, o')
  | (None, o') => (Ok (answer w), o')
  end.

(** [GET /api/status] (lines 114-127) *)
Inductive status_reply :=
  | StatusOnline (totalKeys : nat) (timestamp : Z)
  | StatusError (msg : string).

Definition api_status (o : oracle) (w : world) : status_reply * oracle :=
  match ask (count_keys ValidKeys) o w with
  | (Ok n, o') => (StatusOnline n (clock w), o')
  | (Err e, o') => (StatusError e, o')
  end.

(** [GET /api/keys] (lines 186-206): the [filter] query parameter is
    absent or a string; any value other than the three named ones adds no
    [WHERE] clause. *)
Definition keys_filter (f : option string) : key_filter :=
  match f with
  | Some s =>
      if (s =? "valid")%string then ValidKeys
      else if (s =? "used")%string then UsedKeys
      else if (s =? "expired")%string then ExpiredKeys
      else AllKeys
  | None => AllKeys
  end.

Inductive keys_reply :=
  | KeysList (rows : list key_row)
  | KeysError (msg : string).

Definition api_keys (f : option string) (o : oracle) (w : world)
  : keys_reply * oracle :=
  match ask (list_keys (keys_filter f)) o w with
  | (Ok rows, o') => (KeysList rows, o')
  | (Err e, o') => (KeysError e, o')
  end.

(** [GET /api/stats] (lines 209-229): four statements, one after the
    other; the first that fails ends the handler in its [catch].  Each
    statement is awaited, so other requests may be served and time may
    pass between two of them: [w1] to [w4] are the database and the clock
    as each statement finds them, and each [NOW()] is the clock of its own
    statement. *)
Record stats := Stats {
  stats_total : nat;
  stats_used : nat;
  stats_valid : nat;
  stats_expired : nat
}.

Inductive stats_reply :=
  | StatsOk (s : stats)
  | StatsError (msg : string).

Definition api_stats (o : oracle) (w1 w2 w3 w4 : world) : stats_reply * oracle :=
  match ask (count_keys AllKeys) o w1 with
  | (Err e, o1) => (StatsError e, o1)
  | (Ok total, o1) =>
  match ask (count_keys UsedKeys) o1 w2 with
  | (Err e, o2) => (StatsError e, o2)
  | (Ok nused, o2) =>
  match ask (count_keys ValidKeys) o2 w3 with
  | (Err e, o3) => (StatsError e, o3)
  | (Ok nvalid, o3) =>
  match ask (count_keys ExpiredKeys) o3 w4 with
  | (Err e, o4) => (StatsError e, o4)
  | (Ok nexpired, o4) => (StatsOk (Stats total nused nvalid nexpired), o4)
  end end end end.

(** ** Reading a key back

    The value of an upper-case hexadecimal digit and the bytes a key
    spells; used to state that [generateKey] loses nothing of the random
    bytes. *)

Definition hex_value (c : ascii) : option N :=
  let n := N_of_ascii c in
  if ((48 <=? n) && (n <=? 57))%N then Some (n - 48)%N
  else if ((65 <=? n) && (n <=? 70))%N then Some (n - 55)%N
  else None.

Fixpoint from_hex (s : string) : option (list Byte.byte) :=
  match s with
  | EmptyString => Some []
  | String c1 (String c2 s') =>
      match hex_value c1, hex_value c2, from_hex s' with
      | Some h, Some l, Some bs =>
          match Byte.of_N (16 * h + l) with
          | Some b => Some (b :: bs)
          | None => None
          end
      | _, _, _ => None
      end
  | String _ EmptyString => None
  end.

Definition upper_hex_digit (c : ascii) : Prop := is_Some (hex_value c).

(** Every statement a program can send satisfies [ok], whatever answers
    it gets. *)
Fixpoint sends {A} (ok : sql → Prop) (p : prog A) : Prop :=
  match p with
  | Ret _ | Throw _ => True
  | Query q kerr k => ok q ∧ (∀ e, sends ok (kerr e)) ∧ (∀ rows, sends ok (k rows))
  | RandomBytes n k => ∀ bs, sends ok (k bs)
  | DateNow k => ∀ t, sends ok (k t)
  | UserSend e kerr k => (∀ x, sends ok (kerr x)) ∧ (∀ u, sends ok (k u))
  end.

(** A statement other than [DELETE FROM keys WHERE key = $1]. *)
Definition not_revocation (q : sql) : Prop :=
  match q with
  | DeleteKey _ => False
  | _ => True
  end.

(** Key [k] is in the table and used. *)
Definition kept_used (k : string) (w : world) : Prop :=
  ∃ r, r ∈ keys w ∧ key r = k ∧ used r = true.

(** ** Two requests that overlap

    A [verify] that grants takes four steps: the SELECT, the reading of
    the clock, the UPDATE and the INSERT of the audit row. *)

#[global] Instance event_eq_dec : EqDecision event.
Proof. solve_decision. Defined.

(** Every way of merging two sequences, each keeping its order. *)
Fixpoint merges {A} (l1 : list A) : list A → list (list A) :=
  fix merges_l1 (l2 : list A) : list (list A) :=
    match l1, l2 with
    | [], _ => [l2]
    | _, [] => [l1]
    | x :: l1', y :: l2' =>
        (((x ::.) <$> merges l1' l2) ++ ((y ::.) <$> merges_l1 l2'))%list
    end.

(** The steps request [i] takes in a schedule. *)
Definition steps_of (i : nat) (s : list event) : nat :=
  length (filter (λ e, e = Step i) s).

(** The part of a schedule that comes before request [i] takes its step
    number [n], counted from 0. *)
Fixpoint before_step (i n : nat) (s : list event) : list event :=
  match s with
  | [] => []
  | e :: s' =>
      if decide (e = Step i)
      then match n with
           | O => []
           | S n' => e :: before_step i n' s'
           end
      else e :: before_step i n s'
  end.

(** Request [j] has sent its SELECT (its step 0), respectively its UPDATE
    (its step 2), when request [i] sends its UPDATE. *)
Definition select_before_update (j i : nat) (s : list event) : bool :=
  (1 <=? steps_of j (before_step i 2 s))%nat.
Definition update_before_update (j i : nat) (s : list event) : bool :=
  (3 <=? steps_of j (before_step i 2 s))%nat.

(** The other order of the two UPDATEs: request 1 updates first. *)
Definition racing_back : list event :=
  [Step 0; Step 1; Step 0; Step 1; Step 1; Step 0; Step 1; Step 0]%nat.

(** * Properties of the program *)

(** ** The interpreters *)

Section RunLemmas.
Context {A B : Type}.

Lemma run_bind (p : prog A) (f : A → prog B) o w :
  run (bind p f) o w =
  match run p o w with
  | (Ok a, o', w') => run (f a) o' w'
  | (Err e, o', w') => (Err e, o', w')
  end.
Proof.
  revert o w.
  induction p as [a|e|q kerr IHe k IHk|n k IHk|k IHk|e kerr IHe k IHk];
    intros o w; simpl; auto.
  - destruct (next_fault o) as [[e|] o']; auto.
    destruct (exec_sql q w) as [[rows w']|e]; auto.
  - destruct (next_dm o).1; auto.
Qed.

Lemma run_try_catch (p : prog A) (h : string → prog A) o w :
  run (try_catch p h) o w =
  match run p o w with
  | (Ok a, o', w') => (Ok a, o', w')
  | (Err e, o', w') => run (h e) o' w'
  end.
Proof.
  revert o w.
  induction p as [a|e|q kerr IHe k IHk|n k IHk|k IHk|e kerr IHe k IHk];
    intros o w; simpl; auto.
  - destruct (next_fault o) as [[e|] o']; auto.
    destruct (exec_sql q w) as [[rows w']|e]; auto.
  - destruct (next_dm o).1; auto.
Qed.

(** Running a handler alone is taking its steps one after the other. *)
Lemma run_step (p : prog A) o w :
  run p o w = let '(p', o', w') := step p o w in run p' o' w'.
Proof.
  destruct p; simpl; auto.
  destruct (next_fault o) as [[e|] o']; auto.
  destruct (exec_sql q w) as [[rows w']|e]; auto.
Qed.
End RunLemmas.

Lemma interleave_app {A} s1 s2 (ts : list (prog A)) o w :
  interleave (s1 ++ s2)%list ts o w =
  let '(ts', o', w') := interleave s1 ts o w in interleave s2 ts' o' w'.
Proof.
  revert ts o w. induction s1 as [|[dt|i] s1 IH]; intros ts o w; simpl.
  - done.
  - apply IH.
  - destruct (ts !! i) as [p|]; [|apply IH].
    destruct (step p o w) as [[p' o'] w']. apply IH.
Qed.

Lemma step_at {A} pre (p : prog A) post m o w :
  interleave (replicate (S m) (Step (length pre))) (pre ++ p :: post)%list o w =
  interleave (replicate m (Step (length pre)))
    (pre ++ (step p o w).1.1 :: post)%list (step p o w).1.2 (step p o w).2.
Proof.
  simpl. rewrite list_lookup_middle by done.
  destruct (step p o w) as [[p' o'] w']. simpl.
  by rewrite insert_app_r_alt, Nat.sub_diag by done.
Qed.

Lemma interleave_finished_at {A} pre (r : res A) post m o w :
  interleave (replicate m (Step (length pre))) (pre ++ finished r :: post)%list o w
  = ((pre ++ finished r :: post)%list, o, w).
Proof.
  induction m as [|m IH]; [done|]. rewrite step_at. by destruct r.
Qed.

(** A handler scheduled on its own finishes after finitely many steps,
    with the result, oracle and world [run] computes; the other handlers
    of the pool are not touched. *)
Lemma interleave_alone_at {A} pre (p : prog A) post o w :
  ∃ n, ∀ m, (n ≤ m)%nat →
    interleave (replicate m (Step (length pre))) (pre ++ p :: post)%list o w
    = ((pre ++ finished (run p o w).1.1 :: post)%list, (run p o w).1.2, (run p o w).2).
Proof.
  revert o w.
  induction p as [a|e|q kerr IHe k IHk|n k IHk|k IHk|e kerr IHe k IHk]; intros o w.
  - exists 0%nat. intros m _. apply (interleave_finished_at pre (Ok a)).
  - exists 0%nat. intros m _. apply (interleave_finished_at pre (Err e)).
  - simpl. destruct (next_fault o) as [[e|] o'] eqn:Ef.
    + destruct (IHe e o' w) as [n Hn]. exists (S n). intros [|m] Hm; [lia|].
      rewrite step_at. simpl. rewrite Ef. simpl. apply Hn. lia.
    + destruct (exec_sql q w) as [[rows w']|e] eqn:Eq.
      * destruct (IHk rows o' w') as [n Hn]. exists (S n). intros [|m] Hm; [lia|].
        rewrite step_at. simpl. rewrite Ef, Eq. simpl. apply Hn. lia.
      * destruct (IHe e o' w) as [n Hn]. exists (S n). intros [|m] Hm; [lia|].
        rewrite step_at. simpl. rewrite Ef, Eq. simpl. apply Hn. lia.
  - simpl. destruct (IHk (next_bytes n o).1 (next_bytes n o).2 w) as [n' Hn].
    exists (S n'). intros [|m] Hm; [lia|]. rewrite step_at. apply Hn. lia.
  - simpl. destruct (IHk (clock w) o w) as [n' Hn].
    exists (S n'). intros [|m] Hm; [lia|]. rewrite step_at. apply Hn. lia.
  - simpl. destruct (next_dm o).1 eqn:Ed.
    + destruct (IHe dm_error (next_dm o).2 w) as [n' Hn].
      exists (S n'). intros [|m] Hm; [lia|]. rewrite step_at. simpl. rewrite Ed.
      apply Hn. lia.
    + destruct (IHk tt (next_dm o).2 w) as [n' Hn].
      exists (S n'). intros [|m] Hm; [lia|]. rewrite step_at. simpl. rewrite Ed.
      apply Hn. lia.
Qed.

(** ** Properties of the database that every statement keeps

    Whatever holds of the database before, is kept by each statement and
    does not depend on the clock, holds after any handler run alone and
    after any interleaving of handlers. *)

Section Invariants.
Variable P : world → Prop.
Hypothesis P_exec : ∀ q w rows w', exec_sql q w = Ok (rows, w') → P w → P w'.
Hypothesis P_advance : ∀ dt w, P w → P (advance dt w).

Lemma step_preserves {A} (p : prog A) o w : P w → P (step p o w).2.
Proof using P_exec.
  intros H. destruct p; simpl; auto.
  destruct (next_fault o) as [[e|] o']; auto.
  destruct (exec_sql q w) as [[rows w']|e] eqn:E; simpl; eauto.
Qed.

Lemma run_preserves {A} (p : prog A) o w : P w → P (run p o w).2.
Proof using P_exec.
  revert o w.
  induction p as [a|e|q kerr IHe k IHk|n k IHk|k IHk|e kerr IHe k IHk];
    intros o w H; simpl; auto.
  - destruct (next_fault o) as [[e|] o']; auto.
    destruct (exec_sql q w) as [[rows w']|e] eqn:E; eauto.
  - destruct (next_dm o).1; auto.
Qed.

Lemma interleave_preserves {A} sched (ts : list (prog A)) o w :
  P w → P (interleave sched ts o w).2.
Proof using P_exec P_advance.
  revert ts o w. induction sched as [|[dt|i] sched IH]; intros ts o w H; simpl; auto.
  destruct (ts !! i) as [p|]; auto.
  pose proof (step_preserves p o w H) as H'.
  destruct (step p o w) as [[p' o'] w']. auto.
Qed.
End Invariants.

(** ** Oracles and request fields *)

Lemma truthy_Some s : s ≠ "" → truthy (Some s) = Some s.
Proof. destruct s; simpl; congruence. Qed.

Lemma truthy_inv v s : truthy v = Some s → v = Some s ∧ s ≠ "".
Proof. destruct v as [[|c t]|]; simpl; intros H; inversion H; subst; split; congruence. Qed.

Lemma next_fault_free o :
  fault_free o → (next_fault o).1 = None ∧ fault_free (next_fault o).2.
Proof.
  unfold fault_free, next_fault. destruct o as [[|f fs] rnd dm]; simpl; auto.
  intros H. inversion H; subst. auto.
Qed.

Lemma next_bytes_fault_free n o : fault_free o → fault_free (next_bytes n o).2.
Proof. auto. Qed.

Lemma next_dm_fault_free o : fault_free o → fault_free (next_dm o).2.
Proof. unfold next_dm. destruct (dm_refused o); auto. Qed.

(** Splits on the next answer of the oracle to a statement: failure [e],
    or none; [o'] is the oracle that remains. *)
Tactic Notation "next_fault_cases" constr(o) "as" ident(e) ident(o') :=
  destruct (next_fault o) as [[e|] o'] eqn:?.

(** Under a fault-free oracle the next statement reaches the database;
    [o'] is the oracle that remains, fault-free by [Ho']. *)
Tactic Notation "no_fault" hyp(H) "as" ident(o') ident(Ho') :=
  let Hf := fresh "Hf" in
  let f := fresh "f" in
  match type of H with
  | fault_free ?o =>
      destruct (next_fault_free o H) as [Hf Ho'];
      destruct (next_fault o) as [f o'] eqn:?;
      simpl in Hf, Ho'; subst f
  end.

(** ** Looking a key up *)

Lemma lookup_key_has_key k w kd : lookup_key k w = Some kd → key kd = k.
Proof.
  unfold lookup_key. intros H. apply head_Some_elem_of in H.
  apply list_elem_of_filter in H as [H _]. by apply String.eqb_eq.
Qed.

Lemma lookup_key_elem_of k w kd : lookup_key k w = Some kd → kd ∈ keys w.
Proof.
  unfold lookup_key. intros H. apply head_Some_elem_of in H.
  by apply list_elem_of_filter in H as [_ H].
Qed.

(** An update that keeps every row's key does not change which row a
    lookup finds, only that row's other columns. *)
Lemma lookup_key_map k (f : key_row → key_row) w :
  (∀ r, key (f r) = key r) →
  lookup_key k (set_keys (map f (keys w)) w) = f <$> lookup_key k w.
Proof.
  intros Hf. unfold lookup_key, set_keys. simpl.
  induction (keys w) as [|r l IH]; simpl; [done|].
  assert (Hk : has_key k (f r) = has_key k r) by (unfold has_key; by rewrite Hf).
  rewrite !filter_cons.
  destruct (decide (has_key k (f r) = true)), (decide (has_key k r = true));
    simpl; auto; congruence.
Qed.

Lemma lookup_key_consume k k' n i w :
  lookup_key k (consume k' n i w) =
  (λ r, if has_key k' r then mark_used n i (clock w) r else r) <$> lookup_key k w.
Proof. apply lookup_key_map. intros r. by destruct (has_key k' r). Qed.

(** With unique keys the row a lookup finds is the only row of that key. *)
Lemma lookup_key_unique k kd w :
  unique_keys w → (lookup_key k w = Some kd ↔ kd ∈ keys w ∧ key kd = k).
Proof.
  intros Hu. split.
  { intros H. eauto using lookup_key_elem_of, lookup_key_has_key. }
  unfold unique_keys, lookup_key in *. intros [Hin Hk].
  induction (keys w) as [|r l IH]; [by apply elem_of_nil in Hin|].
  rewrite fmap_cons in Hu. apply NoDup_cons in Hu as [Hr Hl].
  rewrite filter_cons.
  destruct (decide (has_key k r = true)) as [E|E]; apply elem_of_cons in Hin as [<-|Hin];
    simpl; auto.
  - apply String.eqb_eq in E. exfalso. apply Hr. rewrite E, <- Hk.
    by apply list_elem_of_fmap_2.
  - exfalso. apply E. by apply String.eqb_eq.
Qed.

Lemma existsb_has_key k l :
  existsb (has_key k) l = false → k ∉ key <$> l.
Proof.
  induction l as [|r l IH]; simpl; [intros _; apply not_elem_of_nil|].
  intros H. apply orb_false_iff in H as [Hr Hl]. rewrite not_elem_of_cons.
  split; [|auto]. unfold has_key in Hr. apply String.eqb_neq in Hr. congruence.
Qed.

(** The statements of the program keep the keys unique: the only one
    that adds a row is rejected when the key is present. *)
Lemma exec_sql_unique q w rows w' :
  exec_sql q w = Ok (rows, w') → unique_keys w → unique_keys w'.
Proof.
  unfold unique_keys. intros E H. destruct q; simpl in E.
  - by inversion E; subst.
  - inversion E; subst. simpl. rewrite <- list_fmap_compose.
    erewrite list_fmap_ext; [exact H|]. intros i r _. simpl. by destruct (has_key k r).
  - by inversion E; subst.
  - destruct expiresAt as [e|]; [|done]. destruct durationText as [d|]; [|done].
    destruct (existsb (has_key k) (keys w)) eqn:Ex; [done|].
    inversion E; subst. simpl. rewrite fmap_app. apply NoDup_app. split_and!; [done| |].
    + intros x Hx Hx'. apply list_elem_of_singleton in Hx'. subst x.
      by apply existsb_has_key in Ex.
    + apply NoDup_singleton.
  - inversion E; subst. simpl. eapply sublist_NoDup; [exact H|].
    apply fmap_sublist, sublist_filter.
  - inversion E; subst. simpl. eapply sublist_NoDup; [exact H|].
    apply fmap_sublist, sublist_filter.
  - by inversion E; subst.
Qed.

Lemma reachable_unique {A} sched (ts : list (prog A)) o now :
  unique_keys (interleave sched ts o (World [] [] now)).2.
Proof.
  apply (interleave_preserves unique_keys); [apply exec_sql_unique|done|].
  apply NoDup_nil_2.
Qed.

(** ** [verify] *)

Lemma verify_sound body o w :
  ∃ reply o' w',
    run (verify body) o w = (Ok reply, o', w') ∧ verify_outcome body w reply w'.
Proof.
  unfold verify.
  destruct (truthy (body_key body)) as [k|] eqn:Ek;
    [|cbn; eauto 6 using verify_outcome].
  destruct (truthy (body_robloxName body)) as [n|] eqn:En;
    [|cbn; eauto 6 using verify_outcome].
  destruct (truthy (body_robloxId body)) as [i|] eqn:Ei;
    [|cbn; eauto 6 using verify_outcome].
  cbn. next_fault_cases o as e1 o1; [cbn; eauto 6 using verify_outcome|].
  fold (lookup_key k w). destruct (lookup_key k w) as [kd|] eqn:El;
    [|cbn; eauto 6 using verify_outcome].
  cbn. destruct (used kd) eqn:Eu; [cbn; eauto 6 using verify_outcome|].
  cbn. destruct (Z.ltb_spec (expires_at kd) (clock w));
    [cbn; eauto 6 using verify_outcome|].
  cbn. next_fault_cases o1 as e2 o2; [cbn; eauto 6 using verify_outcome|].
  cbn. fold (consume k n i w).
  next_fault_cases o2 as e3 o3; cbn.
  - do 3 eexists. split; [done|]. eapply Unlogged; eauto.
  - do 3 eexists. split; [done|]. eapply Granted; eauto.
Qed.

(** What a well-formed request gets when no statement fails. *)
Lemma verify_fault_free k n i o w :
  k ≠ "" → n ≠ "" → i ≠ "" → fault_free o →
  ∃ o', fault_free o' ∧
    run (verify (VerifyBody (Some k) (Some n) (Some i))) o w =
    match lookup_key k w with
    | None => (Ok (invalid "Key não encontrada"), o', w)
    | Some kd =>
        if used kd then (Ok (invalid "Key já foi utilizada"), o', w)
        else if expires_at kd <? clock w then (Ok (invalid "Key expirada"), o', w)
        else (Ok (granted kd), (next_fault (next_fault o').2).2,
              add_log (verify_log k n i kd (clock w)) (consume k n i w))
    end.
Proof.
  intros Hk Hn Hi Ho. unfold verify. simpl body_key. simpl body_robloxName.
  simpl body_robloxId. rewrite !truthy_Some by done.
  cbn. no_fault Ho as o1 Ho1. exists o1. split; [done|].
  fold (lookup_key k w). destruct (lookup_key k w) as [kd|]; [|done].
  cbn. destruct (used kd); [done|].
  cbn. destruct (expires_at kd <? clock w); [done|].
  cbn. no_fault Ho1 as o2 Ho2. cbn. no_fault Ho2 as o3 Ho3. cbn. done.
Qed.

(** ** Requests served one after the other *)

Lemma run_fault_free {A} (p : prog A) o w :
  fault_free o → fault_free (run p o w).1.2.
Proof.
  revert o w.
  induction p as [a|e|q kerr IHe k IHk|n k IHk|k IHk|e kerr IHe k IHk];
    intros o w Ho; simpl; auto.
  - no_fault Ho as o' Ho'. destruct (exec_sql q w) as [[rows w']|e]; auto.
  - pose proof (next_dm_fault_free o Ho). destruct (next_dm o).1; auto.
Qed.

Lemma lookup_key_advance k dt w : lookup_key k (advance dt w) = lookup_key k w.
Proof. done. Qed.

Lemma lookup_key_add_log k l w : lookup_key k (add_log l w) = lookup_key k w.
Proof. done. Qed.

Lemma spent_consume k k' n i w : spent k w → spent k (consume k' n i w).
Proof.
  intros (kd & Hl & Hu). unfold spent. rewrite lookup_key_consume, Hl. simpl.
  eexists. split; [done|]. by destruct (has_key k' kd).
Qed.

Lemma spent_after_grant body w reply w' k :
  verify_outcome body w reply w' → valid reply = true →
  truthy (body_key body) = Some k → spent k w'.
Proof.
  intros [reply' Hv|k0 n i kd reply' _ _ _ _ _ _ Hv|k0 n i kd Hk _ _ Hl _ _] Hg Hk';
    try congruence.
  assert (k0 = k) as -> by congruence.
  unfold spent. rewrite lookup_key_add_log, lookup_key_consume, Hl. simpl.
  eexists. split; [done|].
  apply lookup_key_has_key in Hl. unfold has_key. rewrite Hl, String.eqb_refl. done.
Qed.

Lemma spent_preserved body w reply w' k :
  verify_outcome body w reply w' → spent k w → spent k w'.
Proof.
  intros [reply' _|k0 n i kd reply' _ _ _ _ _ _ _|k0 n i kd _ _ _ _ _ _] Hs;
    auto using spent_consume.
  apply (spent_consume k k0 n i w) in Hs. destruct Hs as (kd' & Hl' & Hu').
  exists kd'. by rewrite lookup_key_add_log.
Qed.

Lemma spent_refuses body w reply w' k :
  verify_outcome body w reply w' → spent k w →
  truthy (body_key body) = Some k → valid reply = false.
Proof.
  intros [reply' Hv|k0 n i kd reply' _ _ _ _ _ _ Hv|k0 n i kd Hk _ _ Hl Hu _]
    (kd' & Hl' & Hu') Hk'; auto.
  assert (k0 = k) as -> by congruence. congruence.
Qed.

Lemma serve_cons dt body reqs o w :
  serve ((dt, body) :: reqs) o w =
  let '(r, o', w') := run (verify body) o (advance dt w) in
  let '(rs, o'', w'') := serve reqs o' w' in
  (r :: rs, o'', w'').
Proof. done. Qed.

Lemma serve_in_turn_at reqs pre o w :
  ∃ ns, length ns = length reqs ∧
    interleave (in_turn (length pre) (zip reqs.*1 ns))
      (pre ++ (verify <$> reqs.*2))%list o w
    = ((pre ++ (finished <$> (serve reqs o w).1.1))%list,
       (serve reqs o w).1.2, (serve reqs o w).2).
Proof.
  revert pre o w. induction reqs as [|[dt body] reqs IH]; intros pre o w.
  - exists []. done.
  - rewrite serve_cons, !fmap_cons.
    destruct (interleave_alone_at pre (verify body) (verify <$> reqs.*2) o (advance dt w))
      as [n Hn].
    specialize (Hn n (le_n n)).
    destruct (run (verify body) o (advance dt w)) as [[r o'] w'] eqn:Er. simpl in Hn.
    destruct (IH (pre ++ [finished r])%list o' w') as (ns & Hlen & Hns).
    exists (n :: ns). split; [simpl; by rewrite Hlen|].
    rewrite length_app in Hns. simpl in Hns. rewrite Nat.add_1_r in Hns.
    rewrite <- !(assoc_L (++)) in Hns. simpl in Hns.
    change (interleave (replicate n (Step (length pre))
                        ++ in_turn (S (length pre)) (zip reqs.*1 ns))%list
              (pre ++ verify body :: (verify <$> reqs.*2))%list o (advance dt w)
            = ((pre ++ (finished <$>
                 (let '(rs, o'', w'') := serve reqs o' w' in (r :: rs, o'', w'')).1.1))%list,
               (let '(rs, o'', w'') := serve reqs o' w' in (r :: rs, o'', w'')).1.2,
               (let '(rs, o'', w'') := serve reqs o' w' in (r :: rs, o'', w'')).2)).
    rewrite interleave_app, Hn, Hns.
    by destruct (serve reqs o' w') as [[rs o''] w''].
Qed.

(** Serving requests one after the other is one of the interleavings:
    the one that lets each handler finish before the next one starts. *)
Lemma serve_in_turn reqs o w :
  ∃ ns, length ns = length reqs ∧
    interleave (in_turn 0 (zip reqs.*1 ns)) (verify <$> reqs.*2) o w
    = (finished <$> (serve reqs o w).1.1, (serve reqs o w).1.2, (serve reqs o w).2).
Proof. apply (serve_in_turn_at reqs []). Qed.

Lemma serve_spent k reqs o w :
  spent k w → grants_for k reqs (serve reqs o w).1.1 = 0%nat.
Proof.
  revert o w. induction reqs as [|[dt body] reqs IH]; intros o w Hs; [done|].
  rewrite serve_cons.
  destruct (verify_sound body o (advance dt w)) as (reply & o' & w' & -> & Hout).
  assert (Hs' : spent k (advance dt w)) by done.
  specialize (IH o' w' (spent_preserved _ _ _ _ k Hout Hs')).
  destruct (serve reqs o' w') as [[rs o''] w'']. simpl in *. rewrite IH.
  destruct (decide (truthy (body_key body) = Some k)) as [Hk|]; [|done].
  by rewrite (spent_refuses _ _ _ _ k Hout Hs' Hk).
Qed.

Lemma serve_at_most_one k reqs o w :
  (grants_for k reqs (serve reqs o w).1.1 ≤ 1)%nat.
Proof.
  revert o w. induction reqs as [|[dt body] reqs IH]; intros o w; [simpl; lia|].
  rewrite serve_cons.
  destruct (verify_sound body o (advance dt w)) as (reply & o' & w' & -> & Hout).
  specialize (IH o' w'). pose proof (serve_spent k reqs o' w') as Hz.
  destruct (serve reqs o' w') as [[rs o''] w'']. simpl in *.
  destruct (decide (truthy (body_key body) = Some k)) as [Hk|]; [|lia].
  destruct (valid reply) eqn:Hv; [|lia].
  rewrite Hz; [lia|]. eapply spent_after_grant; eauto.
Qed.

Lemma verify_spent k body o w :
  fault_free o → spent k w → asks_for k body →
  (run (verify body) o w).1.1 = Ok (invalid "Key já foi utilizada").
Proof.
  intros Ho (kd & Hl & Hu) (Hk & [n Hn] & [i Hi]).
  destruct body as [bk bn bi]. simpl in *.
  apply truthy_inv in Hk as [-> Hk], Hn as [-> Hn], Hi as [-> Hi].
  destruct (verify_fault_free k n i o w Hk Hn Hi Ho) as (o' & _ & ->).
  by rewrite Hl, Hu.
Qed.

Lemma serve_spent_replies k reqs o w m dt body :
  fault_free o → spent k w →
  reqs !! m = Some (dt, body) → asks_for k body →
  (serve reqs o w).1.1 !! m = Some (Ok (invalid "Key já foi utilizada")).
Proof.
  revert o w m. induction reqs as [|[dt0 body0] reqs IH]; intros o w m Ho Hs Hm Hb;
    [done|].
  rewrite serve_cons.
  pose proof (run_fault_free (verify body0) o (advance dt0 w) Ho) as Ho'.
  pose proof (verify_spent k body0 o (advance dt0 w) Ho) as Hfirst.
  destruct (verify_sound body0 o (advance dt0 w)) as (reply & o' & w' & E & Hout).
  rewrite E in *. simpl in Ho', Hfirst.
  assert (Hs' : spent k w') by (eapply spent_preserved; eauto; done).
  specialize (IH o' w').
  destruct (serve reqs o' w') as [[rs o''] w'']. simpl in *.
  destruct m as [|m]; simpl in *.
  - inversion Hm; subst. f_equal. apply Hfirst; done.
  - eauto.
Qed.

(** ** C1: one grant per key *)

(** C1, for requests served in turn.  For every key identifier and every
    sequence of [verify] calls served one after the other, none starting
    before the previous one has replied, at most one call for that key is
    answered [valid: true], whichever statements fail; and when no
    statement fails, every later well-formed call for that key is
    answered "Key já foi utilizada". *)
Theorem serial_verify_single_grant (k : string) (reqs : list (N * verify_body))
    (o : oracle) (w : world) :
  let replies := (serve reqs o w).1.1 in
  (grants_for k reqs replies ≤ 1)%nat ∧
  (fault_free o →
   ∀ j m dtj bodyj dt body,
     (j < m)%nat →
     reqs !! j = Some (dtj, bodyj) → truthy (body_key bodyj) = Some k →
     is_grant <$> replies !! j = Some true →
     reqs !! m = Some (dt, body) → asks_for k body →
     replies !! m = Some (Ok (invalid "Key já foi utilizada"))).
Proof.
  cbv zeta. split; [apply serve_at_most_one|].
  revert o w.
  induction reqs as [|[dt0 body0] reqs IH];
    intros o w Ho j m dtj bodyj dt body Hjm Hj Hkj Hg Hm Hb; [done|].
  rewrite serve_cons in Hg |- *.
  pose proof (run_fault_free (verify body0) o (advance dt0 w) Ho) as Ho'.
  destruct (verify_sound body0 o (advance dt0 w)) as (reply & o' & w' & E & Hout).
  rewrite E in *. simpl in Ho'.
  specialize (IH o' w' Ho').
  pose proof (serve_spent_replies k reqs o' w') as Hrest.
  destruct (serve reqs o' w') as [[rs o''] w'']. simpl in *.
  destruct m as [|m]; [lia|]. simpl in *.
  destruct j as [|j]; simpl in *.
  - injection Hj as <- <-. injection Hg as Hv.
    eapply Hrest; eauto. eapply spent_after_grant; eauto.
  - eapply (IH j m); eauto. lia.
Qed.

(** C1 does not extend to calls that overlap: two [verify] calls for one
    freshly issued key, interleaved so that both read the row before
    either updates it, are both answered [valid: true]. *)
Lemma concurrent_verify_double_grant :
  lookup_key sample_id issued = Some sample_key ∧
  result_of <$> (interleave racing [verify bob_body; verify carol_body]
                   no_faults issued).1.1
  = [Some (granted sample_key); Some (granted sample_key)].
Proof. split; vm_compute; reflexivity. Qed.

(** The same two requests served one after the other. *)
Example serial_replies :
  (serve [(0%N, bob_body); (0%N, carol_body)] no_faults issued).1.1
  = [Ok (granted sample_key); Ok (invalid "Key já foi utilizada")].
Proof. vm_compute. reflexivity. Qed.

(** The double grant is not particular to the sample: any key that can be
    redeemed is granted to both of two racing well-formed requests. *)
Lemma race_grants_both k n1 i1 n2 i2 kd w :
  k ≠ "" → n1 ≠ "" → i1 ≠ "" → n2 ≠ "" → i2 ≠ "" →
  lookup_key k w = Some kd → used kd = false → clock w ≤ expires_at kd →
  result_of <$> (interleave racing
                   [verify (VerifyBody (Some k) (Some n1) (Some i1));
                    verify (VerifyBody (Some k) (Some n2) (Some i2))]
                   no_faults w).1.1
  = [Some (granted kd); Some (granted kd)].
Proof.
  intros Hk H1 H2 H3 H4 Hl Hu He. unfold verify, racing.
  simpl body_key. simpl body_robloxName. simpl body_robloxId.
  rewrite !truthy_Some by done. cbn.
  fold (lookup_key k w). rewrite Hl. cbn. rewrite Hu. cbn.
  destruct (Z.ltb_spec (expires_at kd) (clock w)); [lia|]. cbn. done.
Qed.

(** ** C2: [revokekey] *)

Lemma lookup_key_delete k w :
  lookup_key k (set_keys (filter (λ r, has_key k r = false) (keys w)) w) = None.
Proof.
  unfold lookup_key, set_keys. simpl.
  induction (keys w) as [|r l IH]; [done|].
  rewrite filter_cons. destruct (decide (has_key k r = false)) as [E|E]; [|done].
  rewrite filter_cons. destruct (decide (has_key k r = true)); [congruence|done].
Qed.

(** C2, as the handler behaves.  [revokekey] called by the creator of a
    key deletes the row, appends the REVOKE audit row and reports success,
    whether the key is used or not: there is no already-consumed
    outcome. *)
Theorem revoke_deletes_own_key (u : user) (k : string) (kd : key_row)
    (o : oracle) (w : world) :
  fault_free o → lookup_key k w = Some kd → creator_id kd = user_id u →
  ∃ o' w',
    run (revokekey u k) o w
    = (Ok (Content ("✅ Key `" +:+ k +:+ "` revogada!")), o', w') ∧
    keys w' = filter (λ r, key r ≠ k) (keys w) ∧
    lookup_key k w' = None ∧
    logs w' = (logs w ++ [LogRow "REVOKE" (Some k) (Some (user_id u))
                            (Some (display_name u)) None (clock w)
                            (Some "Key revogada")])%list.
Proof.
  intros Ho Hl Hc. unfold revokekey. cbn. no_fault Ho as o1 Ho1.
  fold (lookup_key k w). rewrite Hl. cbn.
  rewrite Hc, String.eqb_refl. cbn. no_fault Ho1 as o2 Ho2. cbn.
  no_fault Ho2 as o3 Ho3. cbn.
  do 2 eexists. split; [done|]. simpl. split_and!; try done.
  - apply list_filter_iff. intros r. unfold has_key.
    destruct (String.eqb_spec (key r) k); intuition congruence.
  - apply lookup_key_delete.
Qed.

Lemma revoke_deletes_own_key_witness :
  ∃ o' w',
    run (revokekey alice sample_id) no_faults redeemed
    = (Ok (Content ("✅ Key `" +:+ sample_id +:+ "` revogada!")), o', w') ∧
    keys w' = filter (λ r, key r ≠ sample_id) (keys redeemed) ∧
    lookup_key sample_id w' = None ∧
    logs w' = (logs redeemed ++ [LogRow "REVOKE" (Some sample_id) (Some (user_id alice))
                                   (Some (display_name alice)) None (clock redeemed)
                                   (Some "Key revogada")])%list.
Proof.
  apply (revoke_deletes_own_key alice sample_id redeemed_key no_faults redeemed);
    [constructor | reflexivity | reflexivity].
Defined.

(** A requester who is not the creator is refused and nothing changes. *)
Lemma revoke_not_owner u k kd o w :
  fault_free o → lookup_key k w = Some kd → creator_id kd ≠ user_id u →
  ∃ o', run (revokekey u k) o w
        = (Ok (Content "❌ Esta key não pertence a você."), o', w).
Proof.
  intros Ho Hl Hc. unfold revokekey. cbn. no_fault Ho as o1 Ho1.
  fold (lookup_key k w). rewrite Hl. cbn.
  destruct (String.eqb_spec (creator_id kd) (user_id u)); [done|]. cbn. eauto.
Qed.

(** C2's refusal of a used key is not in the program: the creator revokes
    a key that is used; the reply is the success message and the row is
    gone. *)
Lemma revoke_deletes_used_key :
  used <$> lookup_key sample_id redeemed = Some true ∧
  creator_id <$> lookup_key sample_id redeemed = Some (user_id alice) ∧
  let '(r, _, w') := run (revokekey alice sample_id) no_faults redeemed in
  r = Ok (Content "✅ Key `AB01FF10007FDEAD` revogada!") ∧
  keys w' = [] ∧ lookup_key sample_id w' = None.
Proof. vm_compute. split_and!; reflexivity. Qed.

(** ** C3: [minhaskeys] *)

Lemma mine_unexpired_true c now r :
  mine_unexpired c now r = true ↔ creator_id r = c ∧ now < expires_at r.
Proof.
  unfold mine_unexpired. rewrite andb_true_iff, String.eqb_eq, Z.ltb_lt. done.
Qed.

(** What the builder accepts. *)

Lemma js_length_app s t : js_length (s +:+ t) = (js_length s + js_length t)%nat.
Proof. induction s as [|c s IH]; simpl; [done|]. rewrite IH. lia. Qed.

Lemma addFields_one f e :
  addFields [f] e
  = if (length (fields e) <? 25)%nat && field_fits f
    then Ok (Embed (color e) (title e) (description e) (fields e ++ [f]))
    else Err embed_error.
Proof.
  unfold addFields. simpl. rewrite andb_true_r.
  replace (length (fields e) + 1 <=? 25)%nat with (length (fields e) <? 25)%nat; [done|].
  destruct (Nat.ltb_spec (length (fields e)) 25), (Nat.leb_spec (length (fields e) + 1) 25);
    done || lia.
Qed.

(** The loop of [minhaskeys] adds one field for each row, unless one of
    them is refused: the 26th, or one whose text does not fit. *)
Lemma minhaskeys_fields_all userKeys e :
  (length (fields e) ≤ 25)%nat →
  minhaskeys_fields userKeys e
  = if (length (fields e) + length userKeys <=? 25)%nat
       && forallb field_fits (minhaskeys_field <$> userKeys)
    then Ok (Embed (color e) (title e) (description e)
               (fields e ++ (minhaskeys_field <$> userKeys)))
    else Err embed_error.
Proof.
  revert e. induction userKeys as [|kd rest IH]; intros e He.
  - simpl. rewrite Nat.add_0_r, app_nil_r.
    destruct (Nat.leb_spec (length (fields e)) 25); [|lia]. by destruct e.
  - cbn [minhaskeys_fields]. rewrite addFields_one.
    cbn [fmap list_fmap forallb length].
    destruct (Nat.ltb_spec (length (fields e)) 25) as [Hl|Hl]; simpl.
    + destruct (field_fits (minhaskeys_field kd)); simpl.
      * rewrite IH by (simpl; rewrite length_app; simpl; lia).
        simpl. rewrite length_app, <- app_assoc. simpl.
        by replace (length (fields e) + 1 + length rest)%nat
          with (length (fields e) + S (length rest))%nat by lia.
      * by rewrite andb_false_r.
    + destruct (Nat.leb_spec (length (fields e) + S (length rest)) 25); [lia|done].
Qed.

Lemma minhaskeys_embed_all u userKeys :
  minhaskeys_embed u userKeys
  = if text_within 1 4096 (minhaskeys_description u userKeys)
       && (length userKeys <=? 25)%nat
       && forallb field_fits (minhaskeys_field <$> userKeys)
    then Ok (Embed "#5865F2" "🔑 Suas Keys Ativas"
               (Some (minhaskeys_description u userKeys))
               (minhaskeys_field <$> userKeys))
    else Err embed_error.
Proof.
  unfold minhaskeys_embed, setDescription.
  destruct (text_within 1 4096 _); [|done]. cbn [and_then andb].
  rewrite minhaskeys_fields_all by (simpl; lia). done.
Qed.

(** [getkey] and [checkkey] add at most five and eight fields, so only
    the texts can be refused. *)
Lemma getkey_embed_all u k durationText expiresAt notesText :
  getkey_embed u k durationText expiresAt notesText
  = if forallb field_fits (getkey_fields u k durationText expiresAt notesText)
    then Ok (Embed "#5865F2" "🔐 Nova Key Gerada!" None
               (getkey_fields u k durationText expiresAt notesText))
    else Err embed_error.
Proof.
  unfold getkey_embed, getkey_fields, addFields.
  rewrite forallb_app. cbn [fields length Nat.add Nat.leb andb app].
  destruct (forallb field_fits (getkey_main_fields _ _ _ _)); [|done].
  cbn [and_then andb]. destruct (notesText =? "")%string.
  - by rewrite app_nil_r.
  - cbn [fields length Nat.add Nat.leb andb app forallb color title description].
    by destruct (field_fits _).
Qed.

Lemma checkkey_embed_all k kd now :
  checkkey_embed k kd now
  = if forallb field_fits (checkkey_fields k kd now)
    then Ok (Embed (checkkey_color kd now) "🔍 Status da Key" None
               (checkkey_fields k kd now))
    else Err embed_error.
Proof.
  unfold checkkey_embed, checkkey_fields, addFields.
  rewrite !forallb_app. cbn [fields length Nat.add Nat.leb andb app].
  destruct (forallb field_fits (checkkey_main_fields _ _ _)); [|done].
  cbn [and_then andb].
  destruct (used kd), (truthy (notes kd));
    cbn [fields length Nat.add Nat.leb andb app forallb color title description
         and_then checkkey_main_fields];
    repeat (destruct (field_fits _);
            cbn [fields length Nat.add Nat.leb andb app forallb color title
                 description and_then]);
    try done; by rewrite ?app_nil_r.
Qed.

(** C3, as the handler behaves.  [minhaskeys] reads exactly the
    requester's own keys that have not expired ([expires_at > now]), used
    ones included, most recently created first.  It shows them all, one
    field for each, when there are at most 25 of them and every text fits
    an embed; otherwise building the embed throws and the reply is the
    error of the handler's [catch]. *)
Theorem minhaskeys_lists_unexpired (u : user) (o : oracle) (w : world) :
  fault_free o →
  ∃ rows o',
    run (dbAll (SelectMine (user_id u))) o w = (Ok rows, o', w) ∧
    rows ≡ₚ filter (λ r, creator_id r = user_id u ∧ clock w < expires_at r) (keys w) ∧
    StronglySorted newer_first rows ∧
    (∀ r, r ∈ rows ↔ r ∈ keys w ∧ creator_id r = user_id u ∧ clock w < expires_at r) ∧
    run (minhaskeys u) o w =
    (Ok (if decide (rows = [])
         then Content "❌ Você não possui keys ativas."
         else if text_within 1 4096 (minhaskeys_description u rows)
                 && (length rows <=? 25)%nat
                 && forallb field_fits (minhaskeys_field <$> rows)
         then Embeds (Embed "#5865F2" "🔑 Suas Keys Ativas"
                        (Some ("Total: **" +:+ pretty (length rows)
                               +:+ "** key(s) | ID: `" +:+ user_id u +:+ "`"))
                        (minhaskeys_field <$> rows))
         else Content "❌ Erro ao processar comando!"),
     o', w).
Proof.
  intros Ho. unfold minhaskeys, dbAll. cbn. no_fault Ho as o1 Ho1.
  set (rows := merge_sort newer_first
                 (filter (λ r, mine_unexpired (user_id u) (clock w) r = true) (keys w))).
  assert (Hperm : rows ≡ₚ filter (λ r, creator_id r = user_id u ∧ clock w < expires_at r)
                           (keys w)).
  { unfold rows. rewrite merge_sort_Permutation.
    erewrite list_filter_iff; [done|]. intros r. apply mine_unexpired_true. }
  exists rows, o1. split_and!; try done.
  - apply StronglySorted_merge_sort; apply _.
  - intros r. rewrite Hperm, list_elem_of_filter. tauto.
  - cbn. destruct (decide (length rows = 0%nat)) as [E|E].
    + apply nil_length_inv in E. rewrite E. done.
    + destruct (decide (rows = [])) as [E'|_]; [by rewrite E' in E|].
      rewrite minhaskeys_embed_all.
      destruct (_ && _ && _); done.
Qed.

Lemma minhaskeys_lists_unexpired_witness :
  ∃ rows o',
    run (dbAll (SelectMine (user_id alice))) no_faults redeemed = (Ok rows, o', redeemed) ∧
    rows ≡ₚ filter (λ r, creator_id r = user_id alice ∧ clock redeemed < expires_at r)
              (keys redeemed) ∧
    StronglySorted newer_first rows ∧
    (∀ r, r ∈ rows ↔ r ∈ keys redeemed ∧ creator_id r = user_id alice
                     ∧ clock redeemed < expires_at r) ∧
    run (minhaskeys alice) no_faults redeemed =
    (Ok (if decide (rows = [])
         then Content "❌ Você não possui keys ativas."
         else if text_within 1 4096 (minhaskeys_description alice rows)
                 && (length rows <=? 25)%nat
                 && forallb field_fits (minhaskeys_field <$> rows)
         then Embeds (Embed "#5865F2" "🔑 Suas Keys Ativas"
                        (Some ("Total: **" +:+ pretty (length rows)
                               +:+ "** key(s) | ID: `" +:+ user_id alice +:+ "`"))
                        (minhaskeys_field <$> rows))
         else Content "❌ Erro ao processar comando!"),
     o', redeemed).
Proof. apply (minhaskeys_lists_unexpired alice no_faults redeemed). constructor. Defined.

(** With 26 keys still running the listing is lost: the 26th field is
    refused and the reply is the error. *)
Lemma minhaskeys_too_many u o w :
  fault_free o →
  (25 < length (filter (λ r, creator_id r = user_id u ∧ (clock w < expires_at r)%Z)
                  (keys w)))%nat →
  ∃ o', run (minhaskeys u) o w = (Ok command_error, o', w).
Proof.
  intros Ho Hn. unfold minhaskeys, dbAll. cbn. no_fault Ho as o1 Ho1.
  set (rows := merge_sort newer_first
                 (filter (λ r, mine_unexpired (user_id u) (clock w) r = true) (keys w))).
  assert (Hlen : (25 < length rows)%nat).
  { unfold rows. rewrite merge_sort_Permutation.
    erewrite list_filter_iff; [exact Hn|]. intros r. apply mine_unexpired_true. }
  exists o1. cbn. destruct (decide (length rows = 0%nat)); [lia|].
  rewrite minhaskeys_embed_all.
  destruct (Nat.leb_spec (length rows) 25); [lia|]. by rewrite andb_false_r.
Qed.

(** C3's exclusion of used keys is not in the program: after a successful
    [verify] the key is used, and [minhaskeys] still lists it, marked as
    used. *)
Lemma minhaskeys_lists_used_key :
  let w2 := (run (verify bob_body) no_faults issued).2 in
  is_grant (run (verify bob_body) no_faults issued).1.1 = true ∧
  used <$> lookup_key sample_id w2 = Some true ∧
  (run (dbAll (SelectMine (user_id alice))) no_faults w2).1.1
  = Ok [mark_used "bob" "42" 1000 sample_key] ∧
  (run (minhaskeys alice) no_faults w2).1.1
  = Ok (Embeds (Embed "#5865F2" "🔑 Suas Keys Ativas"
                  (Some "Total: **1** key(s) | ID: `111`")
                  [("`AB01FF10007FDEAD`",
                    "Status: ❌ Usada por bob" +:+ nl +:+ "Duração: 1 Hora" +:+ nl
                    +:+ "Expira: <t:3601:R>")])).
Proof. vm_compute. split_and!; reflexivity. Qed.

(** ** C4: one call on its own *)

(** C4, with the comparison of line 155.  A [verify] call that carries a
    key, a Roblox name and a Roblox id, run on its own with no statement
    failing, is answered [valid: true] with the creator, duration and
    creation time of the key if and only if the key exists, is not used
    and [expires_at >= now] (so a call at the exact expiry instant is
    still granted); it then marks the row used and appends the audit row.
    Otherwise it gives the reason (not found, already used, expired) and
    changes nothing. *)
Theorem verify_single_call (k n i : string) (o : oracle) (w : world) :
  k ≠ "" → n ≠ "" → i ≠ "" → fault_free o →
  ∃ reply o' w',
    run (verify (VerifyBody (Some k) (Some n) (Some i))) o w = (Ok reply, o', w') ∧
    (valid reply = true ↔
       ∃ kd, lookup_key k w = Some kd ∧ used kd = false ∧ clock w ≤ expires_at kd) ∧
    (valid reply = true →
       ∃ kd, lookup_key k w = Some kd ∧
         data reply = Some (VerifyData (creator_name kd) (duration kd) (created_at kd)) ∧
         w' = add_log (verify_log k n i kd (clock w)) (consume k n i w)) ∧
    (valid reply = false → reply = invalid (refusal k w) ∧ w' = w).
Proof.
  intros Hk Hn Hi Ho.
  destruct (verify_fault_free k n i o w Hk Hn Hi Ho) as (o' & _ & ->).
  unfold refusal. destruct (lookup_key k w) as [kd|] eqn:El.
  - destruct (used kd) eqn:Eu.
    { do 3 eexists. split; [done|]. simpl. split_and!; try done.
      split; [done|]. intros (kd' & [= <-] & ? & _). congruence. }
    destruct (Z.ltb_spec (expires_at kd) (clock w)).
    { do 3 eexists. split; [done|]. simpl. split_and!; try done.
      split; [done|]. intros (kd' & [= <-] & _ & ?). lia. }
    do 3 eexists. split; [done|]. simpl. split_and!; try done; eauto.
    split; eauto.
  - do 3 eexists. split; [done|]. simpl. split_and!; try done.
    split; [done|]. intros (kd' & ? & _). done.
Qed.

Lemma verify_single_call_witness :
  ∃ reply o' w',
    run (verify (VerifyBody (Some sample_id) (Some "bob") (Some "42")))
        no_faults issued = (Ok reply, o', w') ∧
    (valid reply = true ↔
       ∃ kd, lookup_key sample_id issued = Some kd ∧ used kd = false
             ∧ clock issued ≤ expires_at kd) ∧
    (valid reply = true →
       ∃ kd, lookup_key sample_id issued = Some kd ∧
         data reply = Some (VerifyData (creator_name kd) (duration kd) (created_at kd)) ∧
         w' = add_log (verify_log sample_id "bob" "42" kd (clock issued))
                (consume sample_id "bob" "42" issued)) ∧
    (valid reply = false → reply = invalid (refusal sample_id issued) ∧ w' = issued).
Proof.
  apply (verify_single_call sample_id "bob" "42" no_faults issued);
    [discriminate | discriminate | discriminate | constructor].
Defined.

(** C4's strict comparison does not hold at the expiry instant: with
    [expires_at = now] the key is not expired for line 155 and the call is
    granted. *)
Lemma verify_at_expiry_instant :
  lookup_key sample_id (advance 3600000 issued) = Some sample_key ∧
  clock (advance 3600000 issued) = expires_at sample_key ∧
  (run (verify bob_body) no_faults (advance 3600000 issued)).1.1
  = Ok (granted sample_key).
Proof. split_and!; vm_compute; reflexivity. Qed.

(** ** C5: the audit row fails *)

(** C5, as the handler behaves.  When the [UPDATE] of a [verify] call has
    gone through and the audit [INSERT] then fails with error [e], the row
    stays used (nothing is rolled back), no audit row is written, and the
    caller is answered [valid: false] with [e] as the message. *)
Theorem audit_failure_reported (k n i e : string) (kd : key_row)
    (fs : list (option string)) (o : oracle) (w : world) :
  k ≠ "" → n ≠ "" → i ≠ "" →
  lookup_key k w = Some kd → used kd = false → clock w ≤ expires_at kd →
  faults o = None :: None :: Some e :: fs →
  ∃ o' w',
    run (verify (VerifyBody (Some k) (Some n) (Some i))) o w
    = (Ok (invalid e), o', w') ∧
    lookup_key k w' = Some (mark_used n i (clock w) kd) ∧
    keys w' = keys (consume k n i w) ∧ logs w' = logs w.
Proof.
  intros Hk Hn Hi Hl Hu Hexp Hf. unfold verify. simpl body_key.
  simpl body_robloxName. simpl body_robloxId. rewrite !truthy_Some by done.
  destruct o as [fl rnd dm]. simpl in Hf. subst fl. cbn.
  fold (lookup_key k w). rewrite Hl. cbn. rewrite Hu. cbn.
  destruct (Z.ltb_spec (expires_at kd) (clock w)); [lia|]. cbn.
  fold (consume k n i w). do 2 eexists. split; [done|].
  split_and!; try done.
  rewrite lookup_key_consume, Hl. simpl.
  apply lookup_key_has_key in Hl. unfold has_key. by rewrite Hl, String.eqb_refl.
Qed.

Lemma audit_failure_reported_witness :
  ∃ o' w',
    run (verify (VerifyBody (Some sample_id) (Some "bob") (Some "42")))
        (Oracle [None; None; Some "connection terminated"] [] []) issued
    = (Ok (invalid "connection terminated"), o', w') ∧
    lookup_key sample_id w' = Some (mark_used "bob" "42" (clock issued) sample_key) ∧
    keys w' = keys (consume sample_id "bob" "42" issued) ∧ logs w' = logs issued.
Proof.
  apply (audit_failure_reported sample_id "bob" "42" "connection terminated"
           sample_key [] (Oracle [None; None; Some "connection terminated"] [] [])
           issued);
    [discriminate | discriminate | discriminate | reflexivity | reflexivity
    | vm_compute; discriminate | reflexivity].
Defined.

(** C5's unchanged result does not hold: the key has been marked used,
    the audit [INSERT] fails, and the caller is told [valid: false]. *)
Lemma audit_failure_changes_result :
  let '(r, _, w') :=
    run (verify bob_body)
        (Oracle [None; None; Some "connection terminated"] [] []) issued in
  r = Ok (invalid "connection terminated") ∧
  is_grant r = false ∧
  used <$> lookup_key sample_id issued = Some false ∧
  used <$> lookup_key sample_id w' = Some true.
Proof. vm_compute. split_and!; reflexivity. Qed.

(** ** [getkey] *)

Local Arguments next_bytes : simpl never.
Local Arguments toUpperCase : simpl never.
Local Arguments to_hex : simpl never.
Local Arguments getkey_embed : simpl never.
Local Arguments checkkey_embed : simpl never.
Local Arguments minhaskeys_embed : simpl never.
Local Arguments getkey_fields : simpl never.
Local Arguments checkkey_fields : simpl never.
Local Arguments field_fits : simpl never.

Lemma random_next_fault o : random (next_fault o).2 = random o.
Proof. unfold next_fault. by destruct (faults o). Qed.

(** The identifier [generateKey] draws from oracle [o]. *)
Lemma run_generateKey o w :
  run generateKey o w
  = (Ok (toUpperCase (to_hex (next_bytes 8 o).1)), (next_bytes 8 o).2, w).
Proof. done. Qed.

(** An issue that goes through: one row and one audit row are added. *)
Lemma getkey_issues u d notas ms text o w :
  duration_switch d = Some (ms, text) → fault_free o →
  existsb (has_key (toUpperCase (to_hex (next_bytes 8 o).1))) (keys w) = false →
  ∃ r o' l,
    run (getkey u d notas) o w =
    (Ok r, o',
     add_log l
       (set_keys (keys w ++ [new_key (toUpperCase (to_hex (next_bytes 8 o).1))
                               (user_id u) (display_name u) (username u)
                               (clock w + ms) text (default "" (truthy notas))
                               (clock w)]) w)).
Proof.
  intros Hd Ho Hfresh. unfold getkey. rewrite Hd. cbn.
  pose proof (next_bytes_fault_free 8 o Ho) as Ho1. no_fault Ho1 as o2 Ho2.
  rewrite Hfresh. cbn. no_fault Ho2 as o3 Ho3. cbn.
  destruct (getkey_embed _ _ _ _ _); cbn; [|eauto].
  destruct (next_dm o3).1; cbn; eauto.
Qed.

(** The offsets of the registered durations. *)
Lemma duration_switch_choices d :
  d ∈ duracao_choices →
  ∃ ms text, duration_switch d = Some (ms, text) ∧
    ((d = "1h" ∧ ms = 1 * 3600000) ∨ (d = "24h" ∧ ms = 24 * 3600000) ∨
     (d = "7d" ∧ ms = 7 * 86400000) ∨ (d = "30d" ∧ ms = 30 * 86400000) ∨
     (d = "perm" ∧ ms = 365 * 86400000)).
Proof.
  unfold duracao_choices. rewrite !elem_of_cons, elem_of_nil.
  intros [->|[->|[->|[->|[->|[]]]]]]; do 2 eexists; (split; [reflexivity|]);
    intuition reflexivity.
Qed.

(** ** C6: identifier collision *)

(** C6, as the handler behaves.  When the identifier [generateKey] draws
    is already in the table, the insert is rejected and the issue fails at
    once: the user gets the generic error reply, no key and no audit row
    are written, and no second identifier is drawn. *)
Theorem collision_not_retried (u : user) (d : string) (notas : option string)
    (o : oracle) (w : world) :
  d ∈ duracao_choices → fault_free o →
  existsb (has_key (toUpperCase (to_hex (next_bytes 8 o).1))) (keys w) = true →
  ∃ o', run (getkey u d notas) o w = (Ok command_error, o', w) ∧
        random o' = drop 8 (random o).
Proof.
  intros Hd Ho Hdup.
  destruct (duration_switch_choices d Hd) as (ms & text & Hsw & _).
  unfold getkey. rewrite Hsw. cbn.
  pose proof (next_bytes_fault_free 8 o Ho) as Ho1. no_fault Ho1 as o2 Ho2.
  rewrite Hdup. cbn. eexists. split; [done|].
  match goal with
  | H : next_fault _ = (None, ?o1) |- random ?o1 = _ =>
      apply (f_equal snd) in H; simpl in H; subst o1
  end.
  by rewrite random_next_fault.
Qed.

Lemma collision_not_retried_witness :
  ∃ o', run (getkey mallory "1h" None)
            (Oracle [] (sample_bytes ++ other_bytes) []) issued
        = (Ok command_error, o', issued) ∧
        random o' = drop 8 (sample_bytes ++ other_bytes).
Proof.
  apply (collision_not_retried mallory "1h" None
           (Oracle [] (sample_bytes ++ other_bytes) []) issued);
    [unfold duracao_choices; rewrite !elem_of_cons; tauto
    | constructor | reflexivity].
Defined.

(** C6's retry is not in the program: the first identifier collides, a
    second one is available from the random source and would be free, yet
    the issue fails on the first collision and the table is unchanged. *)
Lemma collision_fails_issue :
  let o := Oracle [] (sample_bytes ++ other_bytes) [] in
  let '(r, o', w') := run (getkey mallory "1h" None) o issued in
  r = Ok command_error ∧ w' = issued ∧ random o' = other_bytes ∧
  existsb (has_key (toUpperCase (to_hex other_bytes))) (keys issued) = false.
Proof. vm_compute. split_and!; reflexivity. Qed.

(** ** C7: the clean-up *)

Lemma expired_unused_false now r :
  expired_unused now r = false ↔ ¬ (expires_at r < now ∧ used r = false).
Proof.
  unfold expired_unused. destruct (Z.ltb_spec (expires_at r) now), (used r);
    simpl; intuition (try lia; try congruence).
Qed.

(** C7.  A run of [cleanupExpiredKeys] whose [DELETE] goes through
    removes exactly the rows with [expires_at < now] and [used = false]:
    every used row stays, whatever its expiry, and so does every row that
    has not expired; the audit table is not written. *)
Theorem cleanup_deletes_expired_unused (o : oracle) (w : world) :
  (next_fault o).1 = None →
  let w' := (run cleanupExpiredKeys o w).2 in
  keys w' = filter (λ r, ¬ (expires_at r < clock w ∧ used r = false)) (keys w) ∧
  (∀ r, r ∈ keys w' ↔ r ∈ keys w ∧ ¬ (expires_at r < clock w ∧ used r = false)) ∧
  (∀ r, r ∈ keys w → used r = true → r ∈ keys w') ∧
  (∀ r, r ∈ keys w → clock w ≤ expires_at r → r ∈ keys w') ∧
  logs w' = logs w.
Proof.
  intros Hf. unfold cleanupExpiredKeys. cbn.
  destruct (next_fault o) as [f o']. simpl in Hf. subst f. cbn.
  assert (E : filter (λ r, expired_unused (clock w) r = false) (keys w)
              = filter (λ r, ¬ (expires_at r < clock w ∧ used r = false)) (keys w))
    by (apply list_filter_iff; intros r; apply expired_unused_false).
  rewrite E. split_and!; try done.
  - intros r. rewrite list_elem_of_filter. tauto.
  - intros r Hr Hu. apply list_elem_of_filter. split; [|done]. intros [_ ?]. congruence.
  - intros r Hr Hu. apply list_elem_of_filter. split; [|done]. intros [? _]. lia.
Qed.

Lemma cleanup_deletes_expired_unused_witness :
  let w' := (run cleanupExpiredKeys no_faults mixed).2 in
  keys w' = filter (λ r, ¬ (expires_at r < clock mixed ∧ used r = false))
              (keys mixed) ∧
  (∀ r, r ∈ keys w' ↔
        r ∈ keys mixed ∧ ¬ (expires_at r < clock mixed ∧ used r = false)) ∧
  (∀ r, r ∈ keys mixed → used r = true → r ∈ keys w') ∧
  (∀ r, r ∈ keys mixed → clock mixed ≤ expires_at r → r ∈ keys w') ∧
  logs w' = logs mixed.
Proof. apply (cleanup_deletes_expired_unused no_faults mixed). reflexivity. Defined.

(** Of the three sample rows the clean-up removes the first only. *)
Example cleanup_mixed :
  keys (run cleanupExpiredKeys no_faults mixed).2 = [other_key; spent_key].
Proof. vm_compute. reflexivity. Qed.

(** When the [DELETE] itself fails, nothing is removed. *)
Lemma cleanup_failure_keeps_all e fs rnd dm w :
  (run cleanupExpiredKeys (Oracle (Some e :: fs) rnd dm) w).2 = w.
Proof. done. Qed.

(** ** C8: [used_at] and [used] *)

Lemma consistent_new_key k c cn cu e d nt now :
  consistent (new_key k c cn cu e d nt now).
Proof. unfold consistent. simpl. split; [done | discriminate]. Qed.

Lemma consistent_mark_used n i now r : consistent (mark_used n i now r).
Proof. unfold consistent. simpl. split; [done | discriminate]. Qed.

Lemma Forall_filter_keep {A} (P Q : A → Prop) `{!∀ x, Decision (Q x)} (l : list A) :
  Forall P l → Forall P (filter Q l).
Proof.
  rewrite !Forall_forall. intros HP x Hx.
  apply list_elem_of_filter in Hx as [_ Hx]. auto.
Qed.

Lemma exec_sql_consistent q w rows w' :
  exec_sql q w = Ok (rows, w') →
  Forall consistent (keys w) → Forall consistent (keys w').
Proof.
  intros E H. destruct q; simpl in E.
  - by inversion E; subst.
  - inversion E; subst. simpl. apply Forall_fmap.
    eapply Forall_impl; [exact H|]. intros r Hr. simpl.
    destruct (has_key k r); auto using consistent_mark_used.
  - by inversion E; subst.
  - destruct expiresAt as [e|]; [|done]. destruct durationText as [d|]; [|done].
    destruct (existsb (has_key k) (keys w)); [done|].
    inversion E; subst. simpl. apply Forall_app. split; [done|].
    constructor; [apply consistent_new_key | constructor].
  - inversion E; subst. simpl. by apply Forall_filter_keep.
  - inversion E; subst. simpl. by apply Forall_filter_keep.
  - by inversion E; subst.
Qed.

(** What an issue and a redemption that go through do to the table. *)
Lemma getkey_row u d notas ms text o w :
  duration_switch d = Some (ms, text) → fault_free o →
  existsb (has_key (toUpperCase (to_hex (next_bytes 8 o).1))) (keys w) = false →
  ∃ kd, keys (run (getkey u d notas) o w).2 = (keys w ++ [kd])%list ∧
        key kd = toUpperCase (to_hex (next_bytes 8 o).1) ∧
        used kd = false ∧ user_roblox_name kd = None ∧
        user_roblox_id kd = None ∧ used_at kd = None.
Proof.
  intros Hd Ho Hfresh.
  destruct (getkey_issues u d notas ms text o w Hd Ho Hfresh) as (r & o' & l & ->).
  eexists. split; [reflexivity|]. done.
Qed.

Lemma verify_row k n i kd o w :
  k ≠ "" → n ≠ "" → i ≠ "" → fault_free o →
  lookup_key k w = Some kd → used kd = false → clock w ≤ expires_at kd →
  (run (verify (VerifyBody (Some k) (Some n) (Some i))) o w).1.1 = Ok (granted kd) ∧
  lookup_key k (run (verify (VerifyBody (Some k) (Some n) (Some i))) o w).2
  = Some (mark_used n i (clock w) kd).
Proof.
  intros Hk Hn Hi Ho Hl Hu Hexp.
  destruct (verify_fault_free k n i o w Hk Hn Hi Ho) as (o' & _ & ->).
  rewrite Hl, Hu. destruct (Z.ltb_spec (expires_at kd) (clock w)); [lia|].
  split; [done|]. cbn [snd].
  change (lookup_key k (add_log ?l ?w')) with (lookup_key k w').
  rewrite lookup_key_consume, Hl. simpl.
  apply lookup_key_has_key in Hl. unfold has_key. rewrite Hl.
  by rewrite String.eqb_refl.
Qed.

(** C8.  [used_at] is non-null exactly on the rows whose [used] is true,
    and every operation keeps it so: if it holds of every row before, it
    holds of every row after any request run alone and after any
    interleaving of any requests.  An issue that goes through adds one
    row, with [used = false] and the Roblox columns and [used_at] null.  A
    [verify] that grants leaves the row of its key with [used = true], the
    two Roblox columns and [used_at = now], all set by the one update; a
    [verify] that does not grant changes no row. *)
Theorem used_at_iff_used (w : world) :
  Forall consistent (keys w) →
  (∀ req o, Forall consistent (keys (run (handle req) o w).2)) ∧
  (∀ sched reqs o,
     Forall consistent (keys (interleave sched (handle <$> reqs) o w).2)) ∧
  (∀ u d notas ms text o,
     duration_switch d = Some (ms, text) → fault_free o →
     existsb (has_key (toUpperCase (to_hex (next_bytes 8 o).1))) (keys w) = false →
     ∃ kd, keys (run (getkey u d notas) o w).2 = (keys w ++ [kd])%list ∧
           key kd = toUpperCase (to_hex (next_bytes 8 o).1) ∧
           used kd = false ∧ user_roblox_name kd = None ∧
           user_roblox_id kd = None ∧ used_at kd = None) ∧
  (∀ k n i kd o,
     k ≠ "" → n ≠ "" → i ≠ "" → fault_free o →
     lookup_key k w = Some kd → used kd = false → clock w ≤ expires_at kd →
     let after := run (verify (VerifyBody (Some k) (Some n) (Some i))) o w in
     is_grant after.1.1 = true ∧
     ∃ kd', lookup_key k after.2 = Some kd' ∧
            used kd' = true ∧ user_roblox_name kd' = Some n ∧
            user_roblox_id kd' = Some i ∧ used_at kd' = Some (clock w) ∧
            expires_at kd' = expires_at kd ∧ creator_id kd' = creator_id kd) ∧
  (∀ k n i o,
     k ≠ "" → n ≠ "" → i ≠ "" → fault_free o →
     let after := run (verify (VerifyBody (Some k) (Some n) (Some i))) o w in
     is_grant after.1.1 = false → keys after.2 = keys w).
Proof.
  intros H. split_and!.
  - intros req o.
    by apply (run_preserves (λ w, Forall consistent (keys w)) exec_sql_consistent).
  - intros sched reqs o.
    by apply (interleave_preserves (λ w, Forall consistent (keys w))
                exec_sql_consistent).
  - intros u d notas ms text o. apply getkey_row.
  - intros k n i kd o Hk Hn Hi Ho Hl Hu Hexp after.
    destruct (verify_row k n i kd o w Hk Hn Hi Ho Hl Hu Hexp) as [Hr Hw].
    subst after. rewrite Hr, Hw. split; [done|]. eexists. split; [reflexivity|]. done.
  - intros k n i o Hk Hn Hi Ho after. subst after.
    destruct (verify_fault_free k n i o w Hk Hn Hi Ho) as (o' & _ & ->).
    destruct (lookup_key k w) as [kd|]; [|done].
    destruct (used kd); [done|]. destruct (expires_at kd <? clock w); done.
Qed.

Lemma used_at_iff_used_witness :
  (∀ req o, Forall consistent (keys (run (handle req) o issued).2)) ∧
  (∀ sched reqs o,
     Forall consistent (keys (interleave sched (handle <$> reqs) o issued).2)) ∧
  (∀ u d notas ms text o,
     duration_switch d = Some (ms, text) → fault_free o →
     existsb (has_key (toUpperCase (to_hex (next_bytes 8 o).1))) (keys issued) = false →
     ∃ kd, keys (run (getkey u d notas) o issued).2 = (keys issued ++ [kd])%list ∧
           key kd = toUpperCase (to_hex (next_bytes 8 o).1) ∧
           used kd = false ∧ user_roblox_name kd = None ∧
           user_roblox_id kd = None ∧ used_at kd = None) ∧
  (∀ k n i kd o,
     k ≠ "" → n ≠ "" → i ≠ "" → fault_free o →
     lookup_key k issued = Some kd → used kd = false → clock issued ≤ expires_at kd →
     let after := run (verify (VerifyBody (Some k) (Some n) (Some i))) o issued in
     is_grant after.1.1 = true ∧
     ∃ kd', lookup_key k after.2 = Some kd' ∧
            used kd' = true ∧ user_roblox_name kd' = Some n ∧
            user_roblox_id kd' = Some i ∧ used_at kd' = Some (clock issued) ∧
            expires_at kd' = expires_at kd ∧ creator_id kd' = creator_id kd) ∧
  (∀ k n i o,
     k ≠ "" → n ≠ "" → i ≠ "" → fault_free o →
     let after := run (verify (VerifyBody (Some k) (Some n) (Some i))) o issued in
     is_grant after.1.1 = false → keys after.2 = keys issued).
Proof.
  apply (used_at_iff_used issued).
  constructor; [|constructor]. unfold consistent. simpl. split; [done | discriminate].
Defined.

(** On the samples: the issue stores a row that is not used and has no
    [used_at]; the redemption sets both. *)
Lemma used_at_on_samples :
  (run (getkey alice "1h" None) (Oracle [] sample_bytes []) empty_db).2 = issued ∧
  (used <$> lookup_key sample_id issued, used_at <$> lookup_key sample_id issued)
  = (Some false, Some None) ∧
  (run (verify bob_body) no_faults (advance 1000 issued)).2 = redeemed ∧
  (used <$> lookup_key sample_id redeemed, used_at <$> lookup_key sample_id redeemed)
  = (Some true, Some (Some 2000)).
Proof. vm_compute. split_and!; reflexivity. Qed.

(** From an empty database the property holds in every state the
    process can reach. *)
Lemma reachable_consistent sched reqs o now :
  Forall consistent (keys (interleave sched (handle <$> reqs) o (World [] [] now)).2).
Proof.
  apply (interleave_preserves (λ w, Forall consistent (keys w)) exec_sql_consistent);
    [done | constructor].
Qed.

(** ** C9: durations *)

(** C9.  For each duration the command offers, the switch gives a fixed
    offset in milliseconds (1h: one hour, 24h: 24 hours, 7d: 7 days,
    30d: 30 days, perm: 365 days), and an issue that goes through stores
    [expires_at = now + offset], a concrete timestamp also for the
    permanent class. *)
Theorem duration_offsets (u : user) (d : string) (notas : option string)
    (o : oracle) (w : world) :
  d ∈ duracao_choices → fault_free o →
  existsb (has_key (toUpperCase (to_hex (next_bytes 8 o).1))) (keys w) = false →
  ∃ ms text kd r o' w',
    duration_switch d = Some (ms, text) ∧
    ((d = "1h" ∧ ms = 1 * 3600000) ∨ (d = "24h" ∧ ms = 24 * 3600000) ∨
     (d = "7d" ∧ ms = 7 * 86400000) ∨ (d = "30d" ∧ ms = 30 * 86400000) ∨
     (d = "perm" ∧ ms = 365 * 86400000)) ∧
    run (getkey u d notas) o w = (Ok r, o', w') ∧
    keys w' = (keys w ++ [kd])%list ∧
    created_at kd = clock w ∧ expires_at kd = clock w + ms ∧
    duration kd = text ∧ used kd = false ∧ used_at kd = None.
Proof.
  intros Hd Ho Hfresh.
  destruct (duration_switch_choices d Hd) as (ms & text & Hsw & Htable).
  destruct (getkey_issues u d notas ms text o w Hsw Ho Hfresh) as (r & o' & l & E).
  exists ms, text. do 4 eexists. split_and!; [done|done|exact E|..]; done.
Qed.

Lemma duration_offsets_witness :
  ∃ ms text kd r o' w',
    duration_switch "perm" = Some (ms, text) ∧
    (("perm" = "1h" ∧ ms = 1 * 3600000) ∨ ("perm" = "24h" ∧ ms = 24 * 3600000) ∨
     ("perm" = "7d" ∧ ms = 7 * 86400000) ∨ ("perm" = "30d" ∧ ms = 30 * 86400000) ∨
     ("perm" = "perm" ∧ ms = 365 * 86400000)) ∧
    run (getkey alice "perm" None) (Oracle [] sample_bytes []) empty_db = (Ok r, o', w') ∧
    keys w' = (keys empty_db ++ [kd])%list ∧
    created_at kd = clock empty_db ∧ expires_at kd = clock empty_db + ms ∧
    duration kd = text ∧ used kd = false ∧ used_at kd = None.
Proof.
  apply (duration_offsets alice "perm" None (Oracle [] sample_bytes []) empty_db);
    [unfold duracao_choices; rewrite !elem_of_cons; tauto
    | constructor | reflexivity].
Defined.

(** A duration outside the registered choices leaves [durationMs]
    undefined; the insert is rejected and nothing is stored. *)
Lemma unregistered_duration_rejected u d notas o w :
  duration_switch d = None → fault_free o →
  ∃ o', run (getkey u d notas) o w = (Ok command_error, o', w).
Proof.
  intros Hd Ho. unfold getkey. rewrite Hd. cbn.
  pose proof (next_bytes_fault_free 8 o Ho) as Ho1. no_fault Ho1 as o2 Ho2.
  cbn. eauto.
Qed.

(** The sample key is what [/getkey 1h] issues, and the redeemed sample
    what a [verify] a second later leaves. *)
Lemma sample_key_issued :
  run (getkey alice "1h" None) (Oracle [] sample_bytes []) empty_db
  = (Ok (Content "✅ Key enviada no seu DM!"), no_faults, issued).
Proof. vm_compute. reflexivity. Qed.

Lemma sample_key_redeemed :
  run (verify bob_body) no_faults (advance 1000 issued)
  = (Ok (granted sample_key), no_faults, redeemed).
Proof. vm_compute. reflexivity. Qed.

(** ** C10: used before expired *)

(** The field of the redeemer is refused when the Roblox name alone
    passes the limit of a field value. *)
Lemma long_name_refused k kd now name :
  used kd = true → user_roblox_name kd = Some name →
  (1024 < js_length name)%nat →
  forallb field_fits (checkkey_fields k kd now) = false.
Proof.
  intros Hu Hn Hlen. unfold checkkey_fields. rewrite Hu, !forallb_app.
  cbn [forallb]. unfold field_fits at 2, text_within, checkkey_used_field.
  cbn [fst snd]. rewrite Hn. cbn [default]. unfold id. rewrite !js_length_app.
  match goal with
  | |- context [(?n <=? 1024)%nat] => destruct (Nat.leb_spec n 1024); [lia|]
  end.
  by rewrite !andb_false_r.
Qed.

(** C10, as the handlers behave.  For a key that is both used and past
    its expiry, [verify] answers "Key já foi utilizada", and the status
    [checkkey] computes is "❌ Usada": the used flag is tested before the
    expiry.  [checkkey] shows that status when every text of its embed
    fits; when one does not, as with a Roblox name of more than 1024
    characters, building the embed throws and the reply is the error of
    the handler's [catch]. *)
Theorem used_checked_before_expiry (k n i : string) (kd : key_row)
    (o : oracle) (w : world) :
  k ≠ "" → n ≠ "" → i ≠ "" → fault_free o →
  lookup_key k w = Some kd → used kd = true → expires_at kd < clock w →
  (run (verify (VerifyBody (Some k) (Some n) (Some i))) o w).1.1
  = Ok (invalid "Key já foi utilizada") ∧
  (run (checkkey k) o w).1.1
  = Ok (if forallb field_fits (checkkey_fields k kd (clock w))
        then Embeds (Embed "#ED4245" "🔍 Status da Key" None
                       (checkkey_fields k kd (clock w)))
        else Content "❌ Erro ao processar comando!") ∧
  checkkey_fields k kd (clock w) !! 1%nat = Some ("📊 Status", "❌ Usada") ∧
  (∀ name, user_roblox_name kd = Some name → (1024 < js_length name)%nat →
     (run (checkkey k) o w).1.1 = Ok (Content "❌ Erro ao processar comando!")).
Proof.
  intros Hk Hn Hi Ho Hl Hu Hexp.
  assert (Hrun : (run (checkkey k) o w).1.1
    = Ok (if forallb field_fits (checkkey_fields k kd (clock w))
          then Embeds (Embed "#ED4245" "🔍 Status da Key" None
                         (checkkey_fields k kd (clock w)))
          else Content "❌ Erro ao processar comando!")).
  { unfold checkkey. cbn. no_fault Ho as o1 Ho1. fold (lookup_key k w).
    rewrite Hl. cbn. rewrite checkkey_embed_all.
    unfold checkkey_color. rewrite Hu.
    by destruct (forallb field_fits (checkkey_fields k kd (clock w))). }
  split_and!.
  - destruct (verify_fault_free k n i o w Hk Hn Hi Ho) as (o' & _ & ->).
    by rewrite Hl, Hu.
  - exact Hrun.
  - unfold checkkey_fields, checkkey_main_fields, checkkey_status. by rewrite Hu.
  - intros name Hname Hlen. rewrite Hrun.
    by rewrite (long_name_refused k kd (clock w) name Hu Hname Hlen).
Qed.

Lemma used_checked_before_expiry_witness :
  (run (verify (VerifyBody (Some sample_id) (Some "carol") (Some "43")))
       no_faults (advance 4000000 redeemed)).1.1
  = Ok (invalid "Key já foi utilizada") ∧
  (run (checkkey sample_id) no_faults (advance 4000000 redeemed)).1.1
  = Ok (if forallb field_fits
             (checkkey_fields sample_id redeemed_key (clock (advance 4000000 redeemed)))
        then Embeds (Embed "#ED4245" "🔍 Status da Key" None
                       (checkkey_fields sample_id redeemed_key
                          (clock (advance 4000000 redeemed))))
        else Content "❌ Erro ao processar comando!") ∧
  checkkey_fields sample_id redeemed_key (clock (advance 4000000 redeemed)) !! 1%nat
  = Some ("📊 Status", "❌ Usada") ∧
  (∀ name, user_roblox_name redeemed_key = Some name → (1024 < js_length name)%nat →
     (run (checkkey sample_id) no_faults (advance 4000000 redeemed)).1.1
     = Ok (Content "❌ Erro ao processar comando!")).
Proof.
  apply (used_checked_before_expiry sample_id "carol" "43" redeemed_key
           no_faults (advance 4000000 redeemed));
    [discriminate | discriminate | discriminate | constructor | reflexivity
    | reflexivity | vm_compute; reflexivity].
Defined.

(** On the sample key redeemed by [bob] every text fits, and the embed
    with the status "❌ Usada" is the reply. *)
Lemma checkkey_shows_used :
  ∃ e, (run (checkkey sample_id) no_faults (advance 4000000 redeemed)).1.1
       = Ok (Embeds e) ∧
       fields e !! 1%nat = Some ("📊 Status", "❌ Usada").
Proof. eexists. vm_compute. split; reflexivity. Qed.

(** C10's status is not shown for every used and expired key: [verify]
    accepts a Roblox name of any length (lines 138-140) and stores it; the
    field "Usado por (Roblox)" of such a key is refused when its value
    passes 1024 characters, and [checkkey] answers with the error. *)
Lemma checkkey_long_name_error :
  let w2 := (run (verify long_body) no_faults issued).2 in
  let w3 := advance 4000000 w2 in
  is_grant (run (verify long_body) no_faults issued).1.1 = true ∧
  (λ kd, used kd && (expires_at kd <? clock w3)) <$> lookup_key sample_id w3
  = Some true ∧
  (run (verify carol_body) no_faults w3).1.1 = Ok (invalid "Key já foi utilizada") ∧
  (run (checkkey sample_id) no_faults w3).1.1
  = Ok (Content "❌ Erro ao processar comando!").
Proof. vm_compute. split_and!; reflexivity. Qed.

(** * Further properties of the program *)

(** ** [generateKey] *)

Lemma hex_byte_reads_back (b : Byte.byte) :
  hex_value (upper_ascii (hex_digit (Byte.to_N b / 16)%N)) = Some (Byte.to_N b / 16)%N ∧
  hex_value (upper_ascii (hex_digit (Byte.to_N b mod 16)%N)) = Some (Byte.to_N b mod 16)%N ∧
  Byte.of_N (16 * (Byte.to_N b / 16) + Byte.to_N b mod 16)%N = Some b.
Proof. destruct b; vm_compute; auto. Qed.

Lemma upper_to_hex_cons b bs :
  toUpperCase (to_hex (b :: bs)) =
  String (upper_ascii (hex_digit (Byte.to_N b / 16)%N))
    (String (upper_ascii (hex_digit (Byte.to_N b mod 16)%N))
       (toUpperCase (to_hex bs))).
Proof. reflexivity. Qed.

Lemma from_hex_to_hex bs : from_hex (toUpperCase (to_hex bs)) = Some bs.
Proof.
  induction bs as [|b bs IH]; [reflexivity|].
  rewrite upper_to_hex_cons. cbn [from_hex].
  destruct (hex_byte_reads_back b) as (-> & -> & ->). by rewrite IH.
Qed.

Lemma length_upper_to_hex bs :
  String.length (toUpperCase (to_hex bs)) = (2 * length bs)%nat.
Proof.
  induction bs as [|b bs IH]; [reflexivity|].
  rewrite upper_to_hex_cons. cbn [String.length length]. rewrite IH. lia.
Qed.

Lemma upper_to_hex_digits bs :
  Forall upper_hex_digit (String.list_ascii_of_string (toUpperCase (to_hex bs))).
Proof.
  induction bs as [|b bs IH]; [constructor|].
  rewrite upper_to_hex_cons. cbn [String.list_ascii_of_string].
  destruct (hex_byte_reads_back b) as (H1 & H2 & _).
  constructor; [by eexists|]. constructor; [by eexists|]. done.
Qed.

Lemma length_next_bytes n o : length (next_bytes n o).1 = n.
Proof.
  unfold next_bytes. simpl. rewrite length_take, length_app, length_replicate. lia.
Qed.

(** X1.  Every key [generateKey] returns is 16 characters long, each one of
    [0-9A-F]; no statement is sent and the database is not touched. *)
Theorem generateKey_format (o : oracle) (w : world) :
  ∃ k, run generateKey o w = (Ok k, (next_bytes 8 o).2, w) ∧
       String.length k = 16%nat ∧
       Forall upper_hex_digit (String.list_ascii_of_string k) ∧
       faults (next_bytes 8 o).2 = faults o.
Proof.
  eexists. split; [reflexivity|]. split_and!.
  - by rewrite length_upper_to_hex, length_next_bytes.
  - apply upper_to_hex_digits.
  - done.
Qed.

(** X2.  The key spells the random bytes it was made from: read back as
    hexadecimal it gives exactly the 8 bytes drawn, so two draws that
    differ give two keys that differ. *)
Theorem generateKey_reads_back (o : oracle) (w : world) :
  (∃ k, (run generateKey o w).1.1 = Ok k ∧ from_hex k = Some (next_bytes 8 o).1) ∧
  (∀ o2 w2, (run generateKey o w).1.1 = (run generateKey o2 w2).1.1 →
            (next_bytes 8 o).1 = (next_bytes 8 o2).1).
Proof.
  split.
  - eexists. split; [reflexivity|]. apply from_hex_to_hex.
  - intros o2 w2 H. rewrite !run_generateKey in H. injection H as H.
    apply (f_equal from_hex) in H. rewrite !from_hex_to_hex in H.
    injection H as H. exact H.
Qed.

(** ** [verify]: incomplete requests and failing statements *)

(** X3.  A request without a key, or without the Roblox name or id, is
    refused before any statement is sent: the oracle and the database are
    as before, and the message names what is missing, the key first. *)
Theorem verify_incomplete_request (body : verify_body) (o : oracle) (w : world) :
  truthy (body_key body) = None ∨ truthy (body_robloxName body) = None
  ∨ truthy (body_robloxId body) = None →
  run (verify body) o w
  = (Ok (invalid match truthy (body_key body) with
                 | None => "Key não fornecida"
                 | Some _ => "Dados do Roblox não fornecidos"
                 end), o, w).
Proof.
  intros H. unfold verify.
  destruct (truthy (body_key body)) as [k|]; [|done].
  destruct (truthy (body_robloxName body)) as [n|]; [|done].
  destruct (truthy (body_robloxId body)) as [i|]; [|done].
  destruct H as [H|[H|H]]; discriminate.
Qed.

Lemma verify_incomplete_request_witness :
  run (verify (VerifyBody (Some sample_id) (Some "") None)) no_faults issued
  = (Ok (invalid match truthy (body_key (VerifyBody (Some sample_id) (Some "") None)) with
                 | None => "Key não fornecida"
                 | Some _ => "Dados do Roblox não fornecidos"
                 end), no_faults, issued).
Proof.
  apply (verify_incomplete_request (VerifyBody (Some sample_id) (Some "") None)
           no_faults issued).
  right. left. reflexivity.
Defined.

(** X4.  When the [SELECT] of a well-formed [verify] fails, or the [UPDATE]
    of a call that would have been granted, the caller is answered
    [valid: false] with the error's message and the database is as
    before: the key is not used up and no audit row is written. *)
Theorem verify_storage_failure (k n i e : string) (fs : list (option string))
    (rnd : list Byte.byte) (dm : list bool) (w : world) :
  k ≠ "" → n ≠ "" → i ≠ "" →
  run (verify (VerifyBody (Some k) (Some n) (Some i))) (Oracle (Some e :: fs) rnd dm) w
  = (Ok (invalid e), Oracle fs rnd dm, w) ∧
  (∀ kd, lookup_key k w = Some kd → used kd = false → clock w ≤ expires_at kd →
     run (verify (VerifyBody (Some k) (Some n) (Some i)))
         (Oracle (None :: Some e :: fs) rnd dm) w
     = (Ok (invalid e), Oracle fs rnd dm, w)).
Proof.
  intros Hk Hn Hi. unfold verify. simpl body_key. simpl body_robloxName.
  simpl body_robloxId. rewrite !truthy_Some by done. split; [done|].
  intros kd Hl Hu He. cbn. fold (lookup_key k w). rewrite Hl. cbn. rewrite Hu. cbn.
  destruct (Z.ltb_spec (expires_at kd) (clock w)); [lia|]. done.
Qed.

Lemma verify_storage_failure_witness :
  run (verify (VerifyBody (Some sample_id) (Some "bob") (Some "42")))
      (Oracle [Some "timeout"] [] []) issued
  = (Ok (invalid "timeout"), Oracle [] [] [], issued) ∧
  (∀ kd, lookup_key sample_id issued = Some kd → used kd = false →
     clock issued ≤ expires_at kd →
     run (verify (VerifyBody (Some sample_id) (Some "bob") (Some "42")))
         (Oracle [None; Some "timeout"] [] []) issued
     = (Ok (invalid "timeout"), Oracle [] [] [], issued)).
Proof.
  apply (verify_storage_failure sample_id "bob" "42" "timeout" [] [] [] issued);
    discriminate.
Defined.

(** ** [verify]: what happens to rows that are used *)

(** X5.  In a table with unique keys, a [verify] call served alone leaves
    every used row exactly as it was, whatever the request and whatever
    fails: the redeemer recorded for a key is not overwritten. *)
Theorem verify_keeps_used_rows (body : verify_body) (o : oracle) (w : world)
    (r : key_row) :
  unique_keys w → r ∈ keys w → used r = true →
  r ∈ keys (run (verify body) o w).2.
Proof.
  intros Hu Hr Hused.
  destruct (verify_sound body o w) as (reply & o' & w' & -> & Hout). simpl.
  assert (Hc : ∀ k n i kd, lookup_key k w = Some kd → used kd = false →
               r ∈ keys (consume k n i w)).
  { intros k n i kd Hl Hkd. unfold consume. simpl.
    apply list_elem_of_fmap. exists r. split; [|done].
    destruct (has_key k r) eqn:E; [|done].
    apply String.eqb_eq in E.
    assert (lookup_key k w = Some r) as Hl' by (by apply lookup_key_unique).
    congruence. }
  destruct Hout as [reply' _|k n i kd reply' _ _ _ Hl Hkd _ _|k n i kd _ _ _ Hl Hkd _];
    [done | by eapply Hc | by apply (Hc k n i kd)].
Qed.

Lemma verify_keeps_used_rows_witness :
  redeemed_key ∈ keys (run (verify carol_body) no_faults redeemed).2.
Proof.
  apply (verify_keeps_used_rows carol_body no_faults redeemed redeemed_key);
    [apply NoDup_singleton | apply list_elem_of_here | reflexivity].
Defined.

Lemma lookup_key_consume_twice k na ia nb ib kd w :
  lookup_key k w = Some kd →
  lookup_key k (consume k nb ib (consume k na ia w))
  = Some (mark_used nb ib (clock w) kd).
Proof.
  intros Hl. rewrite !lookup_key_consume, Hl. simpl.
  apply lookup_key_has_key in Hl. unfold has_key.
  rewrite Hl, String.eqb_refl. simpl. by rewrite Hl, String.eqb_refl.
Qed.

(** X6.  Two overlapping calls are another matter.  In every schedule of
    the steps of two requests for the same key in which each request
    sends its SELECT before the other sends its UPDATE, both are granted,
    both audit rows are written, and the row ends up with the redeemer
    whose UPDATE came last, whichever of the two that is. *)
Theorem race_last_update_wins (k n1 i1 n2 i2 : string) (kd : key_row) (w : world)
    (s : list event) :
  k ≠ "" → n1 ≠ "" → i1 ≠ "" → n2 ≠ "" → i2 ≠ "" →
  lookup_key k w = Some kd → used kd = false → clock w ≤ expires_at kd →
  s ∈ merges (replicate 4 (Step 0)) (replicate 4 (Step 1)) →
  select_before_update 0 1 s = true → select_before_update 1 0 s = true →
  let '(ts, _, w') :=
    interleave s [verify (VerifyBody (Some k) (Some n1) (Some i1));
                  verify (VerifyBody (Some k) (Some n2) (Some i2))]
      no_faults w in
  result_of <$> ts = [Some (granted kd); Some (granted kd)] ∧
  lookup_key k w'
  = Some (if update_before_update 0 1 s
          then mark_used n2 i2 (clock w) kd
          else mark_used n1 i1 (clock w) kd) ∧
  logs w' ≡ₚ (logs w ++ [verify_log k n1 i1 kd (clock w);
                         verify_log k n2 i2 kd (clock w)])%list.
Proof.
  intros Hk H1 H2 H3 H4 Hl Hu He Hs Hs0 Hs1.
  assert (Hlt : (expires_at kd <? clock w) = false) by (apply Z.ltb_ge; lia).
  vm_compute in Hs.
  repeat (apply elem_of_cons in Hs as [->|Hs]); [..|by apply elem_of_nil in Hs].
  all: vm_compute in Hs0; vm_compute in Hs1; try discriminate.
  all: clear Hs0 Hs1.
  all: match goal with
       | |- context [update_before_update 0 1 ?s] =>
           let b := eval vm_compute in (update_before_update 0 1 s) in
           change (update_before_update 0 1 s) with b
       end.
  all: unfold verify; simpl body_key; simpl body_robloxName; simpl body_robloxId;
       rewrite !truthy_Some by done.
  all: repeat (progress (cbn; try fold (lookup_key k w); rewrite ?Hl; cbn;
                         rewrite ?Hu, ?Hlt)).
  all: split_and!; [done| |].
  all: try (first [ change (lookup_key k (consume k n2 i2 (consume k n1 i1 w))
                            = Some (mark_used n2 i2 (clock w) kd))
                  | change (lookup_key k (consume k n1 i1 (consume k n2 i2 w))
                            = Some (mark_used n1 i1 (clock w) kd)) ];
            by apply lookup_key_consume_twice).
  all: rewrite <- (assoc_L (++)); apply Permutation_app_head;
       first [reflexivity | apply perm_swap].
Qed.

Lemma race_last_update_wins_witness :
  let '(ts, _, w') :=
    interleave racing [verify (VerifyBody (Some sample_id) (Some "bob") (Some "42"));
                       verify (VerifyBody (Some sample_id) (Some "carol") (Some "43"))]
      no_faults issued in
  result_of <$> ts = [Some (granted sample_key); Some (granted sample_key)] ∧
  lookup_key sample_id w'
  = Some (if update_before_update 0 1 racing
          then mark_used "carol" "43" (clock issued) sample_key
          else mark_used "bob" "42" (clock issued) sample_key) ∧
  logs w' ≡ₚ (logs issued ++ [verify_log sample_id "bob" "42" sample_key (clock issued);
                              verify_log sample_id "carol" "43" sample_key (clock issued)])%list.
Proof.
  apply (race_last_update_wins sample_id "bob" "42" "carol" "43" sample_key issued racing);
    [discriminate | discriminate | discriminate | discriminate | discriminate
    | reflexivity | reflexivity | vm_compute; discriminate
    | apply (bool_decide_unpack _); vm_compute; exact I | reflexivity | reflexivity].
Defined.

(** The two orders on the sample key: [carol]'s UPDATE last in [racing],
    [bob]'s last in [racing_back]. *)
Lemma race_either_order :
  lookup_key sample_id (interleave racing [verify bob_body; verify carol_body]
                          no_faults issued).2
  = Some (mark_used "carol" "43" 1000 sample_key) ∧
  lookup_key sample_id (interleave racing_back [verify bob_body; verify carol_body]
                          no_faults issued).2
  = Some (mark_used "bob" "42" 1000 sample_key) ∧
  racing ∈ merges (replicate 4 (Step 0)) (replicate 4 (Step 1)) ∧
  racing_back ∈ merges (replicate 4 (Step 0)) (replicate 4 (Step 1)) ∧
  length (merges (replicate 4 (Step 0)) (replicate 4 (Step 1))) = 70%nat ∧
  length (filter (λ s, select_before_update 0 1 s && select_before_update 1 0 s = true)
            (merges (replicate 4 (Step 0)) (replicate 4 (Step 1)))) = 60%nat.
Proof.
  split_and!; try (vm_compute; reflexivity);
    apply (bool_decide_unpack _); vm_compute; exact I.
Qed.


(** ** What holds across every interleaving *)

Lemma exec_sql_logs_grow l0 q w rows w' :
  exec_sql q w = Ok (rows, w') → l0 `prefix_of` logs w → l0 `prefix_of` logs w'.
Proof.
  intros E H. destruct q; simpl in E; try (by inversion E; subst).
  - inversion E; subst. simpl. by apply prefix_app_r.
  - destruct expiresAt as [e|]; [|done]. destruct durationText as [d|]; [|done].
    destruct (existsb (has_key k) (keys w)); [done|]. by inversion E; subst.
Qed.

(** X7.  The audit table only grows: whatever requests are in flight and
    however they interleave, the rows it held are still there, in place
    and unchanged, and new rows come after them. *)
Theorem audit_log_append_only (sched : list event) (reqs : list request)
    (o : oracle) (w : world) :
  logs w `prefix_of` logs (interleave sched (handle <$> reqs) o w).2.
Proof.
  apply (interleave_preserves (λ w', logs w `prefix_of` logs w')).
  - intros q w1 rows w2. apply exec_sql_logs_grow.
  - done.
  - done.
Qed.

(** X8.  No two rows ever carry the same key: if the keys are unique before,
    they are unique after any interleaving of any requests. *)
Theorem keys_stay_unique (sched : list event) (reqs : list request)
    (o : oracle) (w : world) :
  unique_keys w → unique_keys (interleave sched (handle <$> reqs) o w).2.
Proof.
  apply (interleave_preserves unique_keys); [apply exec_sql_unique | done].
Qed.

Lemma keys_stay_unique_witness :
  unique_keys (interleave racing (handle <$> [Verify bob_body; Revokekey alice sample_id])
                 no_faults issued).2.
Proof.
  apply (keys_stay_unique racing [Verify bob_body; Revokekey alice sample_id]
           no_faults issued).
  apply NoDup_singleton.
Defined.

Lemma run_try_catch_replies {A} (p : prog A) (a : string → A) o w :
  ∃ r, (run (try_catch p (λ e, Ret (a e))) o w).1.1 = Ok r.
Proof.
  rewrite run_try_catch. destruct (run p o w) as [[[r|e] o'] w']; simpl; eauto.
Qed.

Lemma run_bind_replies {A B} (p : prog A) (f : A → B) o w :
  (∃ r, (run p o w).1.1 = Ok r) → ∃ r, (run (bind p (λ x, Ret (f x))) o w).1.1 = Ok r.
Proof.
  intros [r H]. rewrite run_bind.
  destruct (run p o w) as [[[r'|e] o'] w']; simpl in *; [eauto | discriminate].
Qed.

(** X9.  No handler lets a failing statement escape as an exception: whatever
    the oracle makes fail, each request is answered with a reply. *)
Theorem handlers_always_reply (req : request) (o : oracle) (w : world) :
  ∃ r, (run (handle req) o w).1.1 = Ok r.
Proof.
  destruct req; apply run_bind_replies;
    [apply (run_try_catch_replies _ invalid)
    | apply (run_try_catch_replies _ (λ _, command_error)) ..
    | apply (run_try_catch_replies _ (λ _, tt))].
Qed.

(** ** The read-only endpoints *)

Lemma ask_no_fault {A} (answer : world → A) o w :
  (next_fault o).1 = None → ask answer o w = (Ok (answer w), (next_fault o).2).
Proof. unfold ask. destruct (next_fault o) as [[e|] o']; simpl; [discriminate|done]. Qed.

Lemma api_stats_fault_free o w1 w2 w3 w4 :
  fault_free o →
  ∃ o', api_stats o w1 w2 w3 w4
        = (StatsOk (Stats (count_keys AllKeys w1) (count_keys UsedKeys w2)
                          (count_keys ValidKeys w3) (count_keys ExpiredKeys w4)), o').
Proof.
  intros Ho. unfold api_stats.
  destruct (next_fault_free o Ho) as [H1 Ho1]. rewrite ask_no_fault by done.
  destruct (next_fault_free _ Ho1) as [H2 Ho2]. rewrite ask_no_fault by done.
  destruct (next_fault_free _ Ho2) as [H3 Ho3]. rewrite ask_no_fault by done.
  destruct (next_fault_free _ Ho3) as [H4 Ho4]. rewrite ask_no_fault by done.
  eauto.
Qed.

Lemma count_all_keys w : count_keys AllKeys w = length (keys w).
Proof.
  unfold count_keys. f_equal. induction (keys w) as [|r l IH]; [done|].
  rewrite filter_cons. simpl. f_equal. exact IH.
Qed.

(** How the four counts of a table relate. *)
Lemma counts_partition now (l : list key_row) :
  length l
  = (length (filter (λ r, selects UsedKeys now r = true) l)
     + length (filter (λ r, selects ValidKeys now r = true) l)
     + length (filter (λ r, used r = false ∧ (expires_at r ≤ now)%Z) l))%nat ∧
  length (filter (λ r, selects ExpiredKeys now r = true) l)
  = (length (filter (λ r, used r = true ∧ (expires_at r < now)%Z) l)
     + length (filter (λ r, used r = false ∧ (expires_at r < now)%Z) l))%nat ∧
  (length (filter (λ r, used r = false ∧ (expires_at r < now)%Z) l)
   ≤ length (filter (λ r, used r = false ∧ (expires_at r ≤ now)%Z) l))%nat ∧
  (length (filter (λ r, used r = true ∧ (expires_at r < now)%Z) l)
   ≤ length (filter (λ r, selects UsedKeys now r = true) l))%nat.
Proof.
  unfold selects. induction l as [|r l (IH1 & IH2 & IH3 & IH4)]; [done|].
  rewrite !filter_cons.
  repeat case_decide; simpl length; try (split_and!; lia); exfalso;
    destruct (used r) eqn:Eu;
    destruct (Z.ltb_spec now (expires_at r));
    destruct (Z.ltb_spec (expires_at r) now);
    simpl in *; intuition (try congruence; try lia).
Qed.

(** The filters of the statements, as conditions on a row. *)
Lemma count_used_keys w :
  count_keys UsedKeys w = length (filter (λ r, used r = true) (keys w)).
Proof. done. Qed.

Lemma count_valid_keys w :
  count_keys ValidKeys w
  = length (filter (λ r, used r = false ∧ (clock w < expires_at r)%Z) (keys w)).
Proof.
  unfold count_keys. f_equal. apply list_filter_iff. intros r. simpl.
  rewrite andb_true_iff, negb_true_iff, Z.ltb_lt. done.
Qed.

Lemma count_expired_keys w :
  count_keys ExpiredKeys w
  = length (filter (λ r, (expires_at r < clock w)%Z) (keys w)).
Proof.
  unfold count_keys. f_equal. apply list_filter_iff. intros r. apply Z.ltb_lt.
Qed.

(** X10.  The counts of [/api/stats], when its four statements go through.
    Each is the count of its own statement on the table as that statement
    finds it: [total] the number of rows, [used] the rows with
    [used = true], [valid] the rows not used whose expiry is after the
    clock, [expired] the rows whose expiry is before the clock, used or
    not.  When nothing happens between the four statements, a row is used,
    or valid, or neither (not used and at or past its expiry), never two
    of these; [expired] is the expired used rows and the expired unused
    rows together, so it can overlap [used] but never [valid]; and
    [/api/status] reports the same number of valid keys. *)
Theorem stats_counts (o : oracle) (w1 w2 w3 w4 : world) :
  fault_free o →
  ∃ s o',
    api_stats o w1 w2 w3 w4 = (StatsOk s, o') ∧
    stats_total s = length (keys w1) ∧
    stats_used s = length (filter (λ r, used r = true) (keys w2)) ∧
    stats_valid s
    = length (filter (λ r, used r = false ∧ (clock w3 < expires_at r)%Z) (keys w3)) ∧
    stats_expired s = length (filter (λ r, (expires_at r < clock w4)%Z) (keys w4)) ∧
    (w2 = w1 → w3 = w1 → w4 = w1 →
     stats_total s
     = (stats_used s + stats_valid s
        + length (filter (λ r, used r = false ∧ (expires_at r ≤ clock w1)%Z)
                    (keys w1)))%nat ∧
     stats_expired s
     = (length (filter (λ r, used r = true ∧ (expires_at r < clock w1)%Z) (keys w1))
        + length (filter (λ r, used r = false ∧ (expires_at r < clock w1)%Z)
                    (keys w1)))%nat ∧
     (stats_valid s + stats_expired s ≤ stats_total s)%nat ∧
     (api_status o w1).1 = StatusOnline (stats_valid s) (clock w1)).
Proof.
  intros Ho. destruct (api_stats_fault_free o w1 w2 w3 w4 Ho) as [o' E].
  do 2 eexists. split; [exact E|]. cbn [stats_total stats_used stats_valid stats_expired].
  split_and!.
  - apply count_all_keys.
  - apply count_used_keys.
  - apply count_valid_keys.
  - apply count_expired_keys.
  - intros -> -> ->.
    destruct (counts_partition (clock w1) (keys w1)) as (H1 & H2 & H3 & H4).
    pose proof (count_all_keys w1) as Hall.
    unfold count_keys in *. rewrite Hall. split_and!; try lia.
    unfold api_status. destruct (next_fault_free o Ho) as [Hf _].
    by rewrite ask_no_fault.
Qed.

Lemma stats_counts_witness :
  ∃ s o',
    api_stats no_faults mixed mixed mixed mixed = (StatsOk s, o') ∧
    stats_total s = length (keys mixed) ∧
    stats_used s = length (filter (λ r, used r = true) (keys mixed)) ∧
    stats_valid s
    = length (filter (λ r, used r = false ∧ (clock mixed < expires_at r)%Z)
                (keys mixed)) ∧
    stats_expired s
    = length (filter (λ r, (expires_at r < clock mixed)%Z) (keys mixed)) ∧
    (mixed = mixed → mixed = mixed → mixed = mixed →
     stats_total s
     = (stats_used s + stats_valid s
        + length (filter (λ r, used r = false ∧ (expires_at r ≤ clock mixed)%Z)
                    (keys mixed)))%nat ∧
     stats_expired s
     = (length (filter (λ r, used r = true ∧ (expires_at r < clock mixed)%Z)
                  (keys mixed))
        + length (filter (λ r, used r = false ∧ (expires_at r < clock mixed)%Z)
                    (keys mixed)))%nat ∧
     (stats_valid s + stats_expired s ≤ stats_total s)%nat ∧
     (api_status no_faults mixed).1 = StatusOnline (stats_valid s) (clock mixed)).
Proof. apply (stats_counts no_faults mixed mixed mixed mixed). constructor. Defined.

(** The counts of the sample table: one key of each kind; the expired
    ones are the unused sample key and the used one. *)
Example stats_mixed :
  (api_stats no_faults mixed mixed mixed mixed).1 = StatsOk (Stats 3 1 1 2).
Proof. vm_compute. reflexivity. Qed.

(** When the key expires between the third and the fourth statement it
    is counted as valid and as expired: the counts of one reply need not
    fit together. *)
Example stats_across_expiry :
  (api_stats no_faults issued issued issued (advance 4000000 issued)).1
  = StatsOk (Stats 1 0 1 1).
Proof. vm_compute. reflexivity. Qed.

(** X11.  When one of the four statements of [/api/stats] fails, the reply is
    that statement's error alone: no partial counts are sent. *)
Theorem stats_failure (j : nat) (e : string) (fs : list (option string))
    (rnd : list Byte.byte) (dm : list bool) (w1 w2 w3 w4 : world) :
  (j < 4)%nat →
  (api_stats (Oracle (replicate j None ++ Some e :: fs) rnd dm) w1 w2 w3 w4).1
  = StatsError e.
Proof.
  intros Hj. destruct j as [|[|[|[|j]]]]; [done..|lia].
Qed.

Lemma stats_failure_witness :
  (api_stats (Oracle (replicate 2 None ++ [Some "timeout"]) [] [])
     mixed mixed mixed mixed).1
  = StatsError "timeout".
Proof. apply (stats_failure 2 "timeout" [] [] [] mixed mixed mixed mixed). lia. Defined.

(** [/api/keys] *)

Lemma keys_filter_named f :
  keys_filter f =
  if decide (f = Some "valid") then ValidKeys
  else if decide (f = Some "used") then UsedKeys
  else if decide (f = Some "expired") then ExpiredKeys
  else AllKeys.
Proof.
  destruct f as [s|]; [|done]. unfold keys_filter.
  destruct (String.eqb_spec s "valid") as [->|?]; [done|].
  destruct (String.eqb_spec s "used") as [->|?]; [done|].
  destruct (String.eqb_spec s "expired") as [->|?]; [done|].
  repeat case_decide; congruence.
Qed.

(** X12.  [/api/keys], when its statement goes through, answers with at most
    200 rows, newest first; together with the rows it leaves out they are
    exactly the rows the filter selects, and no row left out is newer
    than a row listed.  Any filter value other than [valid], [used] and
    [expired], or none, selects the whole table. *)
Theorem api_keys_lists (f : option string) (o : oracle) (w : world) :
  (next_fault o).1 = None →
  ∃ rows rest,
    (api_keys f o w).1 = KeysList rows ∧
    length rows = (200 `min` count_keys (keys_filter f) w)%nat ∧
    StronglySorted newer_first rows ∧
    (rows ++ rest)%list
      ≡ₚ filter (λ r, selects (keys_filter f) (clock w) r = true) (keys w) ∧
    (∀ r r', r ∈ rows → r' ∈ rest → newer_first r r') ∧
    (f ≠ Some "valid" → f ≠ Some "used" → f ≠ Some "expired" →
     (rows ++ rest)%list ≡ₚ keys w).
Proof.
  intros Hf. unfold api_keys. rewrite ask_no_fault by done. simpl.
  set (P := λ r, selects (keys_filter f) (clock w) r = true).
  set (sorted := merge_sort newer_first (filter P (keys w))).
  assert (Hs : StronglySorted newer_first sorted)
    by (apply StronglySorted_merge_sort; apply _).
  assert (Hp : sorted ≡ₚ filter P (keys w)) by apply merge_sort_Permutation.
  exists (take 200 sorted), (drop 200 sorted). unfold list_keys. fold P sorted.
  rewrite <- (take_drop 200 sorted) in Hs.
  split_and!.
  - done.
  - rewrite length_take. unfold count_keys. fold P. by rewrite <- Hp.
  - by apply StronglySorted_app_1_l in Hs.
  - by rewrite take_drop.
  - intros r r' Hr Hr'. by eapply StronglySorted_app_1_elem_of.
  - intros H1 H2 H3. rewrite take_drop, Hp. unfold P.
    rewrite keys_filter_named. repeat case_decide; try done.
    clear. induction (keys w) as [|r l IH]; [done|].
    rewrite filter_cons. simpl. by f_equiv.
Qed.

Lemma api_keys_lists_witness :
  ∃ rows rest,
    (api_keys (Some "expired") no_faults mixed).1 = KeysList rows ∧
    length rows = (200 `min` count_keys (keys_filter (Some "expired")) mixed)%nat ∧
    StronglySorted newer_first rows ∧
    (rows ++ rest)%list
      ≡ₚ filter (λ r, selects (keys_filter (Some "expired")) (clock mixed) r = true)
           (keys mixed) ∧
    (∀ r r', r ∈ rows → r' ∈ rest → newer_first r r') ∧
    (Some "expired" ≠ Some "valid" → Some "expired" ≠ Some "used" →
     Some "expired" ≠ Some "expired" →
     (rows ++ rest)%list ≡ₚ keys mixed).
Proof. apply (api_keys_lists (Some "expired") no_faults mixed). reflexivity. Defined.

(** ** The clean-up and the counts *)

Lemma cleanup_keys o w :
  (next_fault o).1 = None →
  keys (run cleanupExpiredKeys o w).2
  = filter (λ r, expired_unused (clock w) r = false) (keys w) ∧
  clock (run cleanupExpiredKeys o w).2 = clock w.
Proof.
  intros Hf. unfold cleanupExpiredKeys. cbn.
  destruct (next_fault o) as [f o']. simpl in Hf. by subst f.
Qed.

Lemma filter_filter_length {A} (P Q R : A → Prop)
    `{!∀ x, Decision (P x)} `{!∀ x, Decision (Q x)} `{!∀ x, Decision (R x)}
    (l : list A) :
  (∀ x, P x ∧ Q x ↔ R x) →
  length (filter P (filter Q l)) = length (filter R l).
Proof.
  intros HR. induction l as [|x l IH]; [done|].
  rewrite !filter_cons. destruct (decide (Q x)).
  - rewrite filter_cons. pose proof (HR x).
    repeat case_decide; simpl; try lia; tauto.
  - pose proof (HR x). case_decide; [tauto|done].
Qed.

Lemma filter_split_length {A} (Q Q' : A → Prop)
    `{!∀ x, Decision (Q x)} `{!∀ x, Decision (Q' x)} (l : list A) :
  (∀ x, Q' x ↔ ¬ Q x) →
  (length (filter Q l) + length (filter Q' l) = length l)%nat.
Proof.
  intros HQ. induction l as [|x l IH]; [done|].
  rewrite !filter_cons. pose proof (HQ x).
  repeat case_decide; simpl; try lia; tauto.
Qed.

Lemma expired_unused_true now r :
  expired_unused now r = true ↔ used r = false ∧ expires_at r < now.
Proof.
  unfold expired_unused. destruct (Z.ltb_spec (expires_at r) now), (used r);
    simpl; intuition (try lia; try congruence).
Qed.

(** X13.  A clean-up that goes through shows in the counts as follows:
    [valid] and [used] are as before; [total] drops by the number of rows that
    were expired and not used; and what is still counted as [expired]
    afterwards are used rows only. *)
Theorem cleanup_in_counts (o : oracle) (w : world) :
  (next_fault o).1 = None →
  let w' := (run cleanupExpiredKeys o w).2 in
  count_keys ValidKeys w' = count_keys ValidKeys w ∧
  count_keys UsedKeys w' = count_keys UsedKeys w ∧
  (count_keys AllKeys w'
   + length (filter (λ r, used r = false ∧ (expires_at r < clock w)%Z) (keys w))
   = count_keys AllKeys w)%nat ∧
  count_keys ExpiredKeys w'
  = length (filter (λ r, used r = true ∧ (expires_at r < clock w)%Z) (keys w)) ∧
  (count_keys ExpiredKeys w' ≤ count_keys UsedKeys w')%nat.
Proof.
  intros Hf. destruct (cleanup_keys o w Hf) as [Hk Hc]. cbv zeta.
  assert (Hvalid : count_keys ValidKeys (run cleanupExpiredKeys o w).2
                   = count_keys ValidKeys w).
  { unfold count_keys. rewrite Hk, Hc. apply filter_filter_length.
    intros r. rewrite expired_unused_false. unfold selects.
    destruct (used r); destruct (Z.ltb_spec (clock w) (expires_at r)); simpl;
      intuition (try congruence; try lia). }
  assert (Hused : count_keys UsedKeys (run cleanupExpiredKeys o w).2
                  = count_keys UsedKeys w).
  { unfold count_keys. rewrite Hk, Hc. apply filter_filter_length.
    intros r. rewrite expired_unused_false. unfold selects.
    destruct (used r); intuition congruence. }
  assert (Hexp : count_keys ExpiredKeys (run cleanupExpiredKeys o w).2
                 = length (filter (λ r, used r = true ∧ expires_at r < clock w)
                             (keys w))).
  { unfold count_keys. rewrite Hk, Hc. apply filter_filter_length.
    intros r. rewrite expired_unused_false. unfold selects.
    destruct (used r); destruct (Z.ltb_spec (expires_at r) (clock w)); simpl;
      intuition (try congruence; try lia). }
  split_and!; try done.
  - rewrite !count_all_keys, Hk. apply filter_split_length.
    intros r. rewrite <- expired_unused_true.
    destruct (expired_unused (clock w) r); intuition congruence.
  - rewrite Hexp, Hused.
    destruct (counts_partition (clock w) (keys w)) as (_ & _ & _ & H4). exact H4.
Qed.

Lemma cleanup_in_counts_witness :
  let w' := (run cleanupExpiredKeys no_faults mixed).2 in
  count_keys ValidKeys w' = count_keys ValidKeys mixed ∧
  count_keys UsedKeys w' = count_keys UsedKeys mixed ∧
  (count_keys AllKeys w'
   + length (filter (λ r, used r = false ∧ (expires_at r < clock mixed)%Z) (keys mixed))
   = count_keys AllKeys mixed)%nat ∧
  count_keys ExpiredKeys w'
  = length (filter (λ r, used r = true ∧ (expires_at r < clock mixed)%Z) (keys mixed)) ∧
  (count_keys ExpiredKeys w' ≤ count_keys UsedKeys w')%nat.
Proof. apply (cleanup_in_counts no_faults mixed). reflexivity. Defined.

Lemma filter_nothing_expired now (l : list key_row) :
  Forall (λ r, ¬ (expires_at r < now ∧ used r = false)) l →
  filter (λ r, expired_unused now r = false) l = l.
Proof.
  induction 1 as [|r l Hr Hl IH]; [done|].
  rewrite filter_cons. apply expired_unused_false in Hr. rewrite Hr. simpl.
  by rewrite IH.
Qed.

(** X14.  After a clean-up that goes through no row is both expired and not
    used, and a second clean-up at that instant removes nothing, whether
    its statement goes through or fails. *)
Theorem cleanup_twice (o1 o2 : oracle) (w : world) :
  (next_fault o1).1 = None →
  let w1 := (run cleanupExpiredKeys o1 w).2 in
  Forall (λ r, ¬ (expires_at r < clock w ∧ used r = false)) (keys w1) ∧
  keys (run cleanupExpiredKeys o2 w1).2 = keys w1.
Proof.
  intros Hf. destruct (cleanup_keys o1 w Hf) as [Hk Hc]. cbv zeta.
  assert (Hall : Forall (λ r, ¬ (expires_at r < clock w ∧ used r = false))
                   (keys (run cleanupExpiredKeys o1 w).2)).
  { rewrite Hk. apply Forall_forall. intros r Hr.
    apply list_elem_of_filter in Hr as [Hr _]. by apply expired_unused_false. }
  split; [done|].
  destruct (next_fault o2) as [[e|] o2'] eqn:E2.
  - unfold cleanupExpiredKeys. cbn. by rewrite E2.
  - destruct (cleanup_keys o2 (run cleanupExpiredKeys o1 w).2) as [Hk2 _];
      [by rewrite E2|].
    rewrite Hk2, Hc. by apply filter_nothing_expired.
Qed.

Lemma cleanup_twice_witness :
  let w1 := (run cleanupExpiredKeys no_faults mixed).2 in
  Forall (λ r, ¬ (expires_at r < clock mixed ∧ used r = false)) (keys w1) ∧
  keys (run cleanupExpiredKeys no_faults w1).2 = keys w1.
Proof. apply (cleanup_twice no_faults no_faults mixed). reflexivity. Defined.

(** ** Issuing, then redeeming *)

Lemma lookup_key_fresh k r l w :
  keys w = (l ++ [r])%list → existsb (has_key k) l = false → key r = k →
  lookup_key k w = Some r.
Proof.
  intros Hw Hl Hr. unfold lookup_key. rewrite Hw, filter_app.
  assert (filter (λ r0, has_key k r0 = true) l = []) as ->.
  { clear Hw. induction l as [|x l IH]; [done|]. simpl in Hl.
    apply orb_false_iff in Hl as [Hx Hl]. rewrite filter_cons, Hx. simpl. auto. }
  simpl. rewrite filter_cons. unfold has_key. rewrite Hr, String.eqb_refl. done.
Qed.

Lemma generated_key_nonempty o : toUpperCase (to_hex (next_bytes 8 o).1) ≠ "".
Proof.
  intros H. apply (f_equal String.length) in H.
  rewrite length_upper_to_hex, length_next_bytes in H. discriminate.
Qed.

(** X15.  A key that has just been issued can be redeemed: a well-formed
    [verify] for it, any time up to and including its expiry, is granted
    and names the issuer, the duration text and the time of issue; one
    millisecond later it is refused as expired. *)
Theorem issued_key_redeemable (u : user) (d : string) (notas : option string)
    (n i : string) (dt : N) (o o2 : oracle) (w : world) :
  d ∈ duracao_choices → fault_free o → fault_free o2 → n ≠ "" → i ≠ "" →
  existsb (has_key (toUpperCase (to_hex (next_bytes 8 o).1))) (keys w) = false →
  ∃ ms text,
    duration_switch d = Some (ms, text) ∧
    (run (verify (VerifyBody (Some (toUpperCase (to_hex (next_bytes 8 o).1)))
                    (Some n) (Some i)))
         o2 (advance dt (run (getkey u d notas) o w).2)).1.1
    = Ok (if Z.of_N dt <=? ms
          then VerifyReply true "Key válida! Acesso liberado."
                 (Some (VerifyData (display_name u) text (clock w)))
          else invalid "Key expirada").
Proof.
  intros Hd Ho Ho2 Hn Hi Hfresh.
  destruct (duration_switch_choices d Hd) as (ms & text & Hsw & _).
  destruct (getkey_issues u d notas ms text o w Hsw Ho Hfresh) as (r & o' & l & E).
  exists ms, text. split; [done|]. rewrite E. cbn [snd].
  set (k := toUpperCase (to_hex (next_bytes 8 o).1)) in *.
  set (w1 := advance dt _).
  destruct (verify_fault_free k n i o2 w1 (generated_key_nonempty o) Hn Hi Ho2)
    as (o2' & _ & ->).
  erewrite (lookup_key_fresh k _ (keys w) w1); [|reflexivity|done|reflexivity].
  simpl. destruct (Z.leb_spec (Z.of_N dt) ms);
    destruct (Z.ltb_spec (clock w + ms) (clock w + Z.of_N dt)); try lia; done.
Qed.

Lemma issued_key_redeemable_witness :
  ∃ ms text,
    duration_switch "1h" = Some (ms, text) ∧
    (run (verify (VerifyBody
                    (Some (toUpperCase (to_hex (next_bytes 8 (Oracle [] sample_bytes [])).1)))
                    (Some "bob") (Some "42")))
         no_faults
         (advance 3600000 (run (getkey alice "1h" None) (Oracle [] sample_bytes [])
                             empty_db).2)).1.1
    = Ok (if Z.of_N 3600000 <=? ms
          then VerifyReply true "Key válida! Acesso liberado."
                 (Some (VerifyData (display_name alice) text (clock empty_db)))
          else invalid "Key expirada").
Proof.
  apply (issued_key_redeemable alice "1h" None "bob" "42" 3600000
           (Oracle [] sample_bytes []) no_faults empty_db);
    [unfold duracao_choices; rewrite !elem_of_cons; tauto
    | constructor | constructor | discriminate | discriminate | reflexivity].
Defined.

(** ** [revokekey] and what follows it *)

Lemma revokekey_runs u k kd o w :
  fault_free o → lookup_key k w = Some kd → creator_id kd = user_id u →
  ∃ o' l,
    run (revokekey u k) o w
    = (Ok (Content ("✅ Key `" +:+ k +:+ "` revogada!")), o',
       add_log l (set_keys (filter (λ r, has_key k r = false) (keys w)) w)).
Proof.
  intros Ho Hl Hc. unfold revokekey. cbn. no_fault Ho as o1 Ho1.
  fold (lookup_key k w). rewrite Hl. cbn.
  rewrite Hc, String.eqb_refl. cbn. no_fault Ho1 as o2 Ho2. cbn.
  no_fault Ho2 as o3 Ho3. cbn. eauto.
Qed.

Lemma checkkey_not_found k o w :
  fault_free o → lookup_key k w = None →
  (run (checkkey k) o w).1.1 = Ok (Content "❌ Key não encontrada.").
Proof.
  intros Ho Hl. unfold checkkey. cbn. no_fault Ho as o1 Ho1.
  fold (lookup_key k w). by rewrite Hl.
Qed.

(** X16.  Once its creator has revoked a key, the key is gone for everyone:
    at any later time a [verify] for it is answered "Key não encontrada"
    and [checkkey] replies that the key was not found. *)
Theorem revoked_key_not_found (u : user) (k n i : string) (kd : key_row) (dt : N)
    (o o2 o3 : oracle) (w : world) :
  fault_free o → fault_free o2 → fault_free o3 →
  k ≠ "" → n ≠ "" → i ≠ "" →
  lookup_key k w = Some kd → creator_id kd = user_id u →
  let w' := advance dt (run (revokekey u k) o w).2 in
  (run (verify (VerifyBody (Some k) (Some n) (Some i))) o2 w').1.1
  = Ok (invalid "Key não encontrada") ∧
  (run (checkkey k) o3 w').1.1 = Ok (Content "❌ Key não encontrada.").
Proof.
  intros Ho Ho2 Ho3 Hk Hn Hi Hl Hc.
  destruct (revokekey_runs u k kd o w Ho Hl Hc) as (o' & l & E).
  rewrite E. cbn [snd].
  set (w' := advance dt _).
  assert (Hnone : lookup_key k w' = None) by apply lookup_key_delete.
  split.
  - destruct (verify_fault_free k n i o2 w' Hk Hn Hi Ho2) as (o2' & _ & ->).
    by rewrite Hnone.
  - by apply checkkey_not_found.
Qed.

Lemma revoked_key_not_found_witness :
  let w' := advance 5 (run (revokekey alice sample_id) no_faults issued).2 in
  (run (verify (VerifyBody (Some sample_id) (Some "bob") (Some "42"))) no_faults w').1.1
  = Ok (invalid "Key não encontrada") ∧
  (run (checkkey sample_id) no_faults w').1.1 = Ok (Content "❌ Key não encontrada.").
Proof.
  apply (revoked_key_not_found alice sample_id "bob" "42" sample_key 5
           no_faults no_faults no_faults issued);
    [constructor | constructor | constructor | discriminate | discriminate
    | discriminate | reflexivity | reflexivity].
Defined.

(** X17.  A [revokekey] by anyone but the creator, or for a key that does not
    exist, changes nothing: the table and the audit table are as before
    and the reply says which of the two it was. *)
Theorem revoke_refused (u : user) (k : string) (o : oracle) (w : world) :
  fault_free o →
  (∀ kd, lookup_key k w = Some kd → creator_id kd ≠ user_id u) →
  ∃ o', run (revokekey u k) o w
        = (Ok (Content match lookup_key k w with
                       | None => "❌ Key não encontrada."
                       | Some _ => "❌ Esta key não pertence a você."
                       end), o', w).
Proof.
  intros Ho Hc. unfold revokekey. cbn. no_fault Ho as o1 Ho1.
  fold (lookup_key k w). destruct (lookup_key k w) as [kd|] eqn:Hl; cbn; [|eauto].
  destruct (String.eqb_spec (creator_id kd) (user_id u)) as [E|E]; cbn; [|eauto].
  by destruct (Hc kd).
Qed.

Lemma revoke_refused_witness :
  ∃ o', run (revokekey mallory sample_id) no_faults issued
        = (Ok (Content match lookup_key sample_id issued with
                       | None => "❌ Key não encontrada."
                       | Some _ => "❌ Esta key não pertence a você."
                       end), o', issued).
Proof.
  apply (revoke_refused mallory sample_id no_faults issued); [constructor|].
  intros kd H. vm_compute in H. injection H as <-. discriminate.
Defined.

(** X18.  When the [DELETE] of a revocation has gone through and the audit
    [INSERT] fails, the key stays deleted and no audit row records it,
    while the creator is told the command failed. *)
Theorem revoke_audit_failure (u : user) (k e : string) (kd : key_row)
    (fs : list (option string)) (rnd : list Byte.byte) (dm : list bool) (w : world) :
  lookup_key k w = Some kd → creator_id kd = user_id u →
  run (revokekey u k) (Oracle (None :: None :: Some e :: fs) rnd dm) w
  = (Ok command_error, Oracle fs rnd dm,
     set_keys (filter (λ r, has_key k r = false) (keys w)) w).
Proof.
  intros Hl Hc. unfold revokekey. cbn. fold (lookup_key k w). rewrite Hl. cbn.
  by rewrite Hc, String.eqb_refl.
Qed.

Lemma revoke_audit_failure_witness :
  run (revokekey alice sample_id) (Oracle [None; None; Some "timeout"] [] []) issued
  = (Ok command_error, Oracle [] [] [],
     set_keys (filter (λ r, has_key sample_id r = false) (keys issued)) issued).
Proof.
  apply (revoke_audit_failure alice sample_id "timeout" sample_key [] [] [] issued);
    reflexivity.
Defined.

(** ** [checkkey] *)

(** X19.  [checkkey] changes nothing, and the verdict it computes is the
    one [verify] would give at that instant: the status is "✅ Válida"
    (and the embed green) exactly when a well-formed [verify] would be
    granted, "❌ Usada" when it would be refused as used, "⏰ Expirada"
    when as expired.  The reply is the embed with that status when every
    text of the embed fits, and the error of the handler's [catch] when
    one does not. *)
Theorem checkkey_predicts_verify (k n i : string) (kd : key_row)
    (o o2 : oracle) (w : world) :
  fault_free o → fault_free o2 → k ≠ "" → n ≠ "" → i ≠ "" →
  lookup_key k w = Some kd →
  ∃ status reply,
    run (checkkey k) o w
    = (Ok (if forallb field_fits (checkkey_fields k kd (clock w))
           then Embeds (Embed (checkkey_color kd (clock w)) "🔍 Status da Key" None
                          (checkkey_fields k kd (clock w)))
           else Content "❌ Erro ao processar comando!"),
       (next_fault o).2, w) ∧
    checkkey_fields k kd (clock w) !! 1%nat = Some ("📊 Status", status) ∧
    (run (verify (VerifyBody (Some k) (Some n) (Some i))) o2 w).1.1 = Ok reply ∧
    (status = "✅ Válida" ↔ valid reply = true) ∧
    (checkkey_color kd (clock w) = "#57F287" ↔ valid reply = true) ∧
    (status = "❌ Usada" ↔ message reply = "Key já foi utilizada") ∧
    (status = "⏰ Expirada" ↔ message reply = "Key expirada").
Proof.
  intros Ho Ho2 Hk Hn Hi Hl.
  destruct (verify_fault_free k n i o2 w Hk Hn Hi Ho2) as (o2' & _ & ->).
  assert (Hrun : run (checkkey k) o w
    = (Ok (if forallb field_fits (checkkey_fields k kd (clock w))
           then Embeds (Embed (checkkey_color kd (clock w)) "🔍 Status da Key" None
                          (checkkey_fields k kd (clock w)))
           else Content "❌ Erro ao processar comando!"),
       (next_fault o).2, w)).
  { unfold checkkey. cbn. no_fault Ho as o1 Ho1. fold (lookup_key k w).
    rewrite Hl. cbn. rewrite checkkey_embed_all.
    by destruct (forallb field_fits (checkkey_fields k kd (clock w))). }
  rewrite Hrun, Hl. unfold checkkey_fields, checkkey_main_fields, checkkey_color,
    checkkey_status.
  destruct (used kd); [|destruct (expires_at kd <? clock w)]; simpl;
    do 2 eexists; (split; [reflexivity|]); (split; [reflexivity|]);
    (split; [reflexivity|]); simpl; split_and!; split; (done || discriminate).
Qed.

Lemma checkkey_predicts_verify_witness :
  ∃ status reply,
    run (checkkey sample_id) no_faults issued
    = (Ok (if forallb field_fits (checkkey_fields sample_id sample_key (clock issued))
           then Embeds (Embed (checkkey_color sample_key (clock issued))
                          "🔍 Status da Key" None
                          (checkkey_fields sample_id sample_key (clock issued)))
           else Content "❌ Erro ao processar comando!"),
       (next_fault no_faults).2, issued) ∧
    checkkey_fields sample_id sample_key (clock issued) !! 1%nat
    = Some ("📊 Status", status) ∧
    (run (verify (VerifyBody (Some sample_id) (Some "bob") (Some "42")))
         no_faults issued).1.1 = Ok reply ∧
    (status = "✅ Válida" ↔ valid reply = true) ∧
    (checkkey_color sample_key (clock issued) = "#57F287" ↔ valid reply = true) ∧
    (status = "❌ Usada" ↔ message reply = "Key já foi utilizada") ∧
    (status = "⏰ Expirada" ↔ message reply = "Key expirada").
Proof.
  apply (checkkey_predicts_verify sample_id "bob" "42" sample_key
           no_faults no_faults issued);
    [constructor | constructor | discriminate | discriminate | discriminate
    | reflexivity].
Defined.

(** On the sample key every text fits: the reply is the green embed. *)
Example checkkey_sample :
  ∃ e, (run (checkkey sample_id) no_faults issued).1.1 = Ok (Embeds e) ∧
       color e = "#57F287" ∧
       fields e !! 1%nat = Some ("📊 Status", "✅ Válida").
Proof. eexists. vm_compute. split_and!; reflexivity. Qed.

(** ** [getkey]: the direct message, a failing audit row, other durations *)

Lemma dm_refused_next_fault o : dm_refused (next_fault o).2 = dm_refused o.
Proof. unfold next_fault. by destruct (faults o). Qed.

Lemma next_dm_head o : (next_dm o).1 = default false (head (dm_refused o)).
Proof. unfold next_dm. by destruct (dm_refused o). Qed.

Lemma getkey_issues_reply u d notas ms text o w :
  duration_switch d = Some (ms, text) → fault_free o →
  existsb (has_key (toUpperCase (to_hex (next_bytes 8 o).1))) (keys w) = false →
  ∃ o',
    run (getkey u d notas) o w =
    (Ok (if forallb field_fits
              (getkey_fields u (toUpperCase (to_hex (next_bytes 8 o).1))
                 (Some text) (Some (clock w + ms)) (default "" (truthy notas)))
         then if default false (head (dm_refused o))
              then Embeds (Embed "#5865F2" "🔐 Nova Key Gerada!" None
                             (getkey_fields u (toUpperCase (to_hex (next_bytes 8 o).1))
                                (Some text) (Some (clock w + ms))
                                (default "" (truthy notas))))
              else Content "✅ Key enviada no seu DM!"
         else Content "❌ Erro ao processar comando!"),
     o',
     add_log (LogRow "CREATE" (Some (toUpperCase (to_hex (next_bytes 8 o).1)))
                (Some (user_id u)) (Some (display_name u)) None (clock w)
                (Some ("Key gerada: " +:+ text +:+ ". Notas: "
                       +:+ (if (default "" (truthy notas) =? "")%string
                            then "Nenhuma" else default "" (truthy notas)))))
       (set_keys (keys w ++ [new_key (toUpperCase (to_hex (next_bytes 8 o).1))
                               (user_id u) (display_name u) (username u)
                               (clock w + ms) text (default "" (truthy notas))
                               (clock w)]) w)).
Proof.
  intros Hd Ho Hfresh. unfold getkey. rewrite Hd. cbn.
  pose proof (next_bytes_fault_free 8 o Ho) as Ho1. no_fault Ho1 as o2 Ho2.
  rewrite Hfresh. cbn. no_fault Ho2 as o3 Ho3. cbn.
  assert (Hdm : (next_dm o3).1 = default false (head (dm_refused o))).
  { rewrite next_dm_head.
    replace o3 with (next_fault o2).2
      by (by match goal with H : next_fault o2 = _ |- _ => rewrite H end).
    rewrite dm_refused_next_fault.
    replace o2 with (next_fault (next_bytes 8 o).2).2
      by (by match goal with H : next_fault (next_bytes 8 o).2 = _ |- _ => rewrite H end).
    by rewrite dm_refused_next_fault. }
  rewrite getkey_embed_all.
  destruct (forallb field_fits _); cbn; [|eauto].
  rewrite Hdm. destruct (default false (head (dm_refused o))); cbn; eauto.
Qed.

(** X20.  Once the embed of an issue is built, whether the direct message
    is delivered decides only how the key is shown: delivered, the reply
    is a short confirmation; refused, the reply carries the embed with the
    key.  When a text of the embed does not fit, the embed is not built,
    no message is sent and the reply is the error of the handler's
    [catch].  What is stored is the same in all these cases. *)
Theorem getkey_dm_fallback (u : user) (d : string) (notas : option string)
    (o : oracle) (w : world) :
  d ∈ duracao_choices → fault_free o →
  existsb (has_key (toUpperCase (to_hex (next_bytes 8 o).1))) (keys w) = false →
  ∃ ms text fs,
    duration_switch d = Some (ms, text) ∧
    fs = getkey_fields u (toUpperCase (to_hex (next_bytes 8 o).1))
           (Some text) (Some (clock w + ms)) (default "" (truthy notas)) ∧
    (run (getkey u d notas) o w).1.1
    = Ok (if forallb field_fits fs
          then if default false (head (dm_refused o))
               then Embeds (Embed "#5865F2" "🔐 Nova Key Gerada!" None fs)
               else Content "✅ Key enviada no seu DM!"
          else Content "❌ Erro ao processar comando!") ∧
    fs !! 0%nat
    = Some ("🔑 Key", "`" +:+ toUpperCase (to_hex (next_bytes 8 o).1) +:+ "`") ∧
    ∀ dm, (run (getkey u d notas) (Oracle (faults o) (random o) dm) w).2
          = (run (getkey u d notas) o w).2.
Proof.
  intros Hd Ho Hfresh.
  destruct (duration_switch_choices d Hd) as (ms & text & Hsw & _).
  destruct (getkey_issues_reply u d notas ms text o w Hsw Ho Hfresh) as (o' & E).
  exists ms, text. eexists. split; [done|]. split; [reflexivity|].
  rewrite E. split; [reflexivity|]. split; [reflexivity|].
  intros dm.
  destruct (getkey_issues_reply u d notas ms text (Oracle (faults o) (random o) dm) w
              Hsw Ho Hfresh) as (o'' & E').
  rewrite E'. reflexivity.
Qed.

Lemma getkey_dm_fallback_witness :
  ∃ ms text fs,
    duration_switch "1h" = Some (ms, text) ∧
    fs = getkey_fields alice
           (toUpperCase (to_hex (next_bytes 8 (Oracle [] sample_bytes [true])).1))
           (Some text) (Some (clock empty_db + ms)) (default "" (truthy None)) ∧
    (run (getkey alice "1h" None) (Oracle [] sample_bytes [true]) empty_db).1.1
    = Ok (if forallb field_fits fs
          then if default false (head (dm_refused (Oracle [] sample_bytes [true])))
               then Embeds (Embed "#5865F2" "🔐 Nova Key Gerada!" None fs)
               else Content "✅ Key enviada no seu DM!"
          else Content "❌ Erro ao processar comando!") ∧
    fs !! 0%nat
    = Some ("🔑 Key", "`" +:+ toUpperCase
                                 (to_hex (next_bytes 8 (Oracle [] sample_bytes [true])).1)
                      +:+ "`") ∧
    ∀ dm, (run (getkey alice "1h" None)
               (Oracle (faults (Oracle [] sample_bytes [true]))
                       (random (Oracle [] sample_bytes [true])) dm) empty_db).2
          = (run (getkey alice "1h" None) (Oracle [] sample_bytes [true]) empty_db).2.
Proof.
  apply (getkey_dm_fallback alice "1h" None (Oracle [] sample_bytes [true]) empty_db);
    [unfold duracao_choices; rewrite !elem_of_cons; tauto | constructor | reflexivity].
Defined.

(** On the samples: the message refused, the reply carries the key. *)
Example getkey_dm_refused :
  (run (getkey alice "1h" None) (Oracle [] sample_bytes [true]) empty_db).1.1
  = Ok (Embeds (Embed "#5865F2" "🔐 Nova Key Gerada!" None
                  [("🔑 Key", "`AB01FF10007FDEAD`"); ("⏱️ Duração", "1 Hora");
                   ("📅 Expira em", "<t:3601:R>"); ("👤 Seu ID", "`111`")])).
Proof. vm_compute. reflexivity. Qed.






Lemma duration_switch_None d : d ∉ duracao_choices → duration_switch d = None.
Proof.
  unfold duracao_choices, duration_switch. rewrite !not_elem_of_cons.
  intros (H1 & H2 & H3 & H4 & H5 & _).
  repeat match goal with
         | |- context [String.eqb d ?s] => destruct (String.eqb_spec d s); [done|]
         end.
  done.
Qed.

(** X22.  A duration that is not one of the five registered values issues
    nothing: whatever the oracle, the table and the audit table are as
    before and the user gets the generic error reply. *)
Theorem getkey_unregistered_duration (u : user) (d : string) (notas : option string)
    (o : oracle) (w : world) :
  d ∉ duracao_choices →
  ∃ o', run (getkey u d notas) o w = (Ok command_error, o', w).
Proof.
  intros Hd. unfold getkey. rewrite (duration_switch_None d Hd). cbn.
  next_fault_cases (next_bytes 8 o).2 as e1 o1; cbn; eauto.
Qed.

Lemma getkey_unregistered_duration_witness :
  ∃ o', run (getkey alice "2h" None) (Oracle [] sample_bytes []) empty_db
        = (Ok command_error, o', empty_db).
Proof.
  apply (getkey_unregistered_duration alice "2h" None (Oracle [] sample_bytes []) empty_db).
  unfold duracao_choices. rewrite !not_elem_of_cons. split_and!; try discriminate.
  apply not_elem_of_nil.
Defined.

(** ** Used keys and the clean-up, across interleavings *)

Lemma sends_bind {A B} ok (p : prog A) (f : A → prog B) :
  sends ok p → (∀ a, sends ok (f a)) → sends ok (bind p f).
Proof.
  intros Hp Hf. induction p as [a|e|q kerr IHe k IHk|n k IHk|k IHk|e kerr IHe k IHk];
    simpl in *; auto.
  - destruct Hp as (Hq & He & Hk). split_and!; auto.
  - destruct Hp as (He & Hk). split; auto.
Qed.

Lemma sends_try_catch {A} ok (p : prog A) (h : string → prog A) :
  sends ok p → (∀ e, sends ok (h e)) → sends ok (try_catch p h).
Proof.
  intros Hp Hh. induction p as [a|e|q kerr IHe k IHk|n k IHk|k IHk|e kerr IHe k IHk];
    simpl in *; auto.
  - destruct Hp as (Hq & He & Hk). split_and!; auto.
  - destruct Hp as (He & Hk). split; auto.
Qed.

Lemma sends_dbRun ok q : ok q → sends ok (dbRun q).
Proof. simpl. auto. Qed.

Lemma sends_step {A} ok (p : prog A) o w : sends ok p → sends ok (step p o w).1.1.
Proof.
  intros Hp. destruct p; simpl in *; auto.
  - destruct Hp as (Hq & He & Hk).
    destruct (next_fault o) as [[e|] o']; simpl; auto.
    destruct (exec_sql q w) as [[rows w']|e]; simpl; auto.
  - destruct Hp as (He & Hk). destruct (next_dm o).1; auto.
Qed.

(** The handlers that send no revocation: all but [revokekey]. *)
Lemma handle_sends_no_revocation req :
  (∀ u k, req ≠ Revokekey u k) → sends not_revocation (handle req).
Proof.
  intros Hreq. destruct req as [body|u d notas|u|u k|k|]; unfold handle;
    [| | |by destruct (Hreq u k)| |];
    (apply sends_bind; [|done]); (apply sends_try_catch; [|done]).
  all: repeat first
         [ done | split | intro | progress simpl
         | match goal with
           | |- context [attempt ?r] => destruct r
           | |- context [match ?x with _ => _ end] => destruct x
           end ].
Qed.

Lemma exec_sql_kept_used k q w rows w' :
  not_revocation q → exec_sql q w = Ok (rows, w') → kept_used k w → kept_used k w'.
Proof.
  intros Hq E (r & Hr & Hk & Hu). destruct q; simpl in E; try done.
  - inversion E; subst. by exists r.
  - inversion E; subst. simpl.
    exists (if has_key k0 r then mark_used robloxName robloxId (clock w) r else r).
    split; [apply list_elem_of_fmap; by exists r|].
    by destruct (has_key k0 r).
  - inversion E; subst. by exists r.
  - destruct expiresAt as [e|]; [|done]. destruct durationText as [d|]; [|done].
    destruct (existsb (has_key k0) (keys w)); [done|].
    inversion E; subst. exists r. split; [|done]. simpl. apply elem_of_app. by left.
  - inversion E; subst. exists r. split; [|done]. simpl.
    apply list_elem_of_filter. split; [|done]. unfold expired_unused.
    rewrite Hu. apply andb_false_r.
  - inversion E; subst. by exists r.
Qed.

Lemma interleave_kept_used {A} k sched (ts : list (prog A)) o w :
  Forall (sends not_revocation) ts → kept_used k w →
  kept_used k (interleave sched ts o w).2.
Proof.
  revert ts o w. induction sched as [|[dt|i] sched IH]; intros ts o w Hts Hw; simpl; auto.
  destruct (ts !! i) as [p|] eqn:Ei; auto.
  assert (Hp : sends not_revocation p) by (eapply Forall_lookup_1; eauto).
  pose proof (sends_step not_revocation p o w Hp) as Hp'.
  assert (Hw' : kept_used k (step p o w).2).
  { destruct p; simpl; auto. destruct Hp as (Hq & _).
    destruct (next_fault o) as [[e|] o']; simpl; auto.
    destruct (exec_sql q w) as [[rows w']|e] eqn:E; simpl; auto.
    eapply exec_sql_kept_used; eauto. }
  destruct (step p o w) as [[p' o'] w']. simpl in *.
  apply IH; [|done]. apply Forall_insert; done.
Qed.

(** X23.  Only a revocation removes a used key.  Whatever requests are in
    flight and however they interleave, clean-ups included, a key that is
    in the table and used is still in the table and used afterwards,
    provided no [revokekey] is among the requests. *)
Theorem used_key_survives (k : string) (sched : list event) (reqs : list request)
    (o : oracle) (w : world) :
  (∀ u k', Revokekey u k' ∉ reqs) → kept_used k w →
  kept_used k (interleave sched (handle <$> reqs) o w).2.
Proof.
  intros Hreqs Hw. apply interleave_kept_used; [|done].
  apply Forall_fmap, Forall_forall. intros req Hreq. simpl.
  apply handle_sends_no_revocation. intros u k' ->. by apply (Hreqs u k').
Qed.

Lemma used_key_survives_witness :
  kept_used sample_id
    (interleave racing (handle <$> [Cleanup; Verify carol_body]) no_faults
       (advance 4000000 redeemed)).2.
Proof.
  apply (used_key_survives sample_id racing [Cleanup; Verify carol_body] no_faults
           (advance 4000000 redeemed)).
  - intros u k' H. apply elem_of_cons in H as [H|H]; [discriminate|].
    apply elem_of_cons in H as [H|H]; [discriminate|]. by apply elem_of_nil in H.
  - exists redeemed_key. split_and!; [apply list_elem_of_here | reflexivity | reflexivity].
Defined.

(** ** The two reading commands *)

(** X24.  [minhaskeys] and [checkkey] never write: whatever fails, the tables
    are as before; and when their [SELECT] fails the user gets the
    generic error reply. *)
Theorem reading_commands_write_nothing (u : user) (k : string) (o : oracle) (w : world) :
  (run (minhaskeys u) o w).2 = w ∧ (run (checkkey k) o w).2 = w ∧
  (is_Some (next_fault o).1 →
   (run (minhaskeys u) o w).1.1 = Ok command_error ∧
   (run (checkkey k) o w).1.1 = Ok command_error).
Proof.
  unfold minhaskeys, checkkey, dbAll. cbn.
  next_fault_cases o as e1 o1; cbn.
  - split_and!; done.
  - split_and!.
    + case_decide; [done|]. by destruct (minhaskeys_embed _ _).
    + destruct (head _) as [kd|]; [|done]. cbn.
      by destruct (checkkey_embed _ _ _).
    + intros [? [=]].
Qed.

(** X26.  A creator with more than 25 keys that have not expired cannot
    list them: the 26th field is refused and [minhaskeys] answers with
    the error of the handler's [catch]; the table is as before. *)
Theorem minhaskeys_over_25 (u : user) (o : oracle) (w : world) :
  fault_free o →
  (25 < length (filter (λ r, creator_id r = user_id u ∧ (clock w < expires_at r)%Z)
                  (keys w)))%nat →
  ∃ o', run (minhaskeys u) o w = (Ok (Content "❌ Erro ao processar comando!"), o', w).
Proof. apply minhaskeys_too_many. Qed.

Lemma minhaskeys_over_25_witness :
  ∃ o', run (minhaskeys alice) no_faults crowded
        = (Ok (Content "❌ Erro ao processar comando!"), o', crowded).
Proof.
  apply (minhaskeys_over_25 alice no_faults crowded); [constructor|].
  vm_compute. lia.
Defined.
